(** * C-PAC: functional preprocessing workflow and group-analysis driver

    A shallow embedding of
      - [CPAC/func_preproc/func_preproc.py]  ([get_idx], [create_func_preproc])
      - [CPAC/pipeline/cpac_ga_model_generator.py]
        ([prep_group_analysis_workflow])
    together with the properties stated about them.

    Python [str] values are lists of characters, Python [int] values are
    [Z], [None]-able arguments are [option], and a [raise] is the [Err]
    branch of [result]. *)

From Stdlib Require Import ZArith Ascii String List Bool Lia.
From stdpp Require Import base numbers list strings gmap.

Local Open Scope Z_scope.

(** ** Python strings *)

Abbreviation str := (list ascii).

(** A string literal of the source. *)
Definition py (s : string) : str := list_ascii_of_string s.

Definition ascii_eqb (a b : ascii) : bool := Ascii.eqb a b.

Definition newline : ascii := "010"%char.
Definition slash : ascii := "/"%char.
Definition comma : ascii := ","%char.
Definition hash : ascii := "#"%char.

Definition is_nl (c : ascii) : bool := ascii_eqb c newline.

(** [a == b] on strings. *)
Fixpoint str_eqb (a b : str) : bool :=
  match a, b with
  | [], [] => true
  | x :: a', y :: b' => ascii_eqb x y && str_eqb a' b'
  | _, _ => false
  end.

(** [s.startswith(p)] *)
Fixpoint startswith (p s : str) : bool :=
  match p, s with
  | [], _ => true
  | x :: p', y :: s' => ascii_eqb x y && startswith p' s'
  | _ :: _, [] => false
  end.

(** [needle in hay]: plain substring containment. *)
Fixpoint in_str (needle hay : str) : bool :=
  startswith needle hay ||
  match hay with
  | [] => false
  | _ :: hay' => in_str needle hay'
  end.

(** [s.count(c)] for a one-character [c]. *)
Fixpoint count_char (c : ascii) (s : str) : nat :=
  match s with
  | [] => O
  | x :: s' => (if ascii_eqb x c then 1 else 0)%nat + count_char c s'
  end.

(** [s.split(c, maxsplit)] for a one-character separator. *)
Fixpoint split_char (c : ascii) (maxsplit : nat) (s : str) : list str :=
  match s with
  | [] => [[]]
  | x :: s' =>
      if ascii_eqb x c then
        match maxsplit with
        | O => [x :: s']
        | S k => [] :: split_char c k s'
        end
      else
        match split_char c maxsplit s' with
        | piece :: pieces => (x :: piece) :: pieces
        | [] => [[x]]
        end
  end.

(** [s.rstrip('\n')]: every trailing newline is removed. *)
Fixpoint rstrip_nl (s : str) : str :=
  match s with
  | [] => []
  | x :: s' =>
      match rstrip_nl s' with
      | [] => if is_nl x then [] else [x]
      | r => x :: r
      end
  end.

(** Exceptions raised by the modelled code, one constructor per [raise]
    site; the payload is what the site prints before raising. *)
Inductive error : Type :=
  | IndexError
  | RepeatedMeasuresFormat          (* ga model generator, line 84 *)
  | NotRepeatedMeasuresFormat       (* line 95 *)
  | NoDerivatives                   (* line 164 *)
  | ParameterFileMissing (path : str)   (* line 232 *)
  | NoMeasuresError (measure : str)     (* line 257 *)
  | NameError (name : string).

Inductive result (A : Type) : Type :=
  | Ok (a : A)
  | Err (e : error).
Arguments Ok {A} a.
Arguments Err {A} e.

Definition is_ok {A} (r : result A) : bool :=
  match r with Ok _ => true | Err _ => false end.

(** Sequencing: the first [raise] aborts what follows. *)
#[global] Instance result_bind : MBind result := fun A B k r =>
  match r with
  | Ok a => k a
  | Err e => Err e
  end.

#[global] Instance result_ret : MRet result := fun A a => Ok a.

#[global] Instance result_fmap : FMap result := fun A B f r =>
  match r with
  | Ok a => Ok (f a)
  | Err e => Err e
  end.

(** ** [func_preproc.py] *)

Module FuncPreproc.

(** The part of a NIfTI header [get_idx] reads: [hdr.get_data_shape()]. *)
Record image : Type := { data_shape : list Z }.

(** [get_idx(in_files, stop_idx, start_idx)], lines 356-394.
    [hdr.get_data_shape()[3]] raises [IndexError] on an image with fewer
    than four dimensions. The pair returned is [(stopidx, startidx)]. *)
Definition get_idx (in_files : image) (stop_idx start_idx : option Z)
  : result (Z * Z) :=
  match data_shape in_files !! 3%nat with
  | None => Err IndexError
  | Some nvols =>
      let startidx :=
        match start_idx with
        | None => 0
        | Some s => if (s <? 0) || (s >? nvols - 1) then 0 else s
        end in
      let stopidx :=
        match stop_idx with
        | None => nvols - 1
        | Some e => if e >? nvols - 1 then nvols - 1 else e
        end in
      Ok (stopidx, startidx)
  end.

(** *** The workflow graph of [create_func_preproc] *)

(** The interface a node wraps. *)
Inductive interface : Type :=
  | IdentityInterface
  | Function_get_idx
  | Threedcalc
  | Threedrefit
  | Resample
  | TStat
  | Threedvolreg
  | ThreedAutomask
  | ImageMaths.

(** The nodes, by the Python variable that holds them. *)
Inductive node : Type :=
  | inputNode
  | outputNode
  | func_get_idx
  | func_drop_trs
  | func_deoblique
  | func_reorient
  | func_get_mean_RPI
  | func_get_mean_motion
  | func_motion_correct
  | func_motion_correct_A
  | func_get_dilate_mask
  | func_edge_detect
  | func_mean_skullstrip
  | func_normalize
  | func_mask_normalize.

#[global] Instance node_eq_dec : EqDecision node.
Proof. solve_decision. Defined.

#[global] Instance interface_eq_dec : EqDecision interface.
Proof. solve_decision. Defined.

(** Lines 208-283; [clone] keeps the interface of the node it copies. *)
Definition node_interface (n : node) : interface :=
  match n with
  | inputNode | outputNode => IdentityInterface
  | func_get_idx => Function_get_idx
  | func_drop_trs => Threedcalc
  | func_deoblique => Threedrefit
  | func_reorient => Resample
  | func_get_mean_RPI => TStat
  | func_get_mean_motion => TStat            (* func_get_mean_RPI.clone *)
  | func_motion_correct => Threedvolreg
  | func_motion_correct_A => Threedvolreg    (* func_motion_correct.clone *)
  | func_get_dilate_mask => ThreedAutomask
  | func_edge_detect => Threedcalc
  | func_mean_skullstrip => TStat
  | func_normalize => ImageMaths
  | func_mask_normalize => ImageMaths
  end.

(** [preproc.connect(src, src_port, dst, dst_port)] *)
Record connection : Type := Connect {
  src : node; src_port : string; dst : node; dst_port : string
}.

(** Lines 286-351, in source order. *)
Definition connections : list connection := [
  Connect inputNode "rest" func_get_idx "in_files";
  Connect inputNode "start_idx" func_get_idx "start_idx";
  Connect inputNode "stop_idx" func_get_idx "stop_idx";
  Connect inputNode "rest" func_drop_trs "infile_a";
  Connect func_get_idx "startidx" func_drop_trs "start_idx";
  Connect func_get_idx "stopidx" func_drop_trs "stop_idx";
  Connect func_drop_trs "out_file" func_deoblique "in_file";
  Connect func_deoblique "out_file" func_reorient "in_file";
  Connect func_reorient "out_file" func_get_mean_RPI "in_file";
  Connect func_reorient "out_file" func_motion_correct "in_file";
  Connect func_get_mean_RPI "out_file" func_motion_correct "basefile";
  Connect func_motion_correct "out_file" func_get_mean_motion "in_file";
  Connect func_reorient "out_file" func_motion_correct_A "in_file";
  Connect func_get_mean_motion "out_file" func_motion_correct_A "basefile";
  Connect func_motion_correct_A "out_file" func_get_dilate_mask "in_file";
  Connect func_motion_correct_A "out_file" func_edge_detect "infile_a";
  Connect func_get_dilate_mask "out_file" func_edge_detect "infile_b";
  Connect func_edge_detect "out_file" func_mean_skullstrip "in_file";
  Connect func_edge_detect "out_file" func_normalize "in_file";
  Connect func_normalize "out_file" func_mask_normalize "in_file";
  Connect func_drop_trs "out_file" outputNode "drop_tr";
  Connect func_deoblique "out_file" outputNode "refit";
  Connect func_reorient "out_file" outputNode "reorient";
  Connect func_get_mean_motion "out_file" outputNode "motion_correct_ref";
  Connect func_motion_correct_A "out_file" outputNode "motion_correct";
  Connect func_motion_correct_A "md1d_file" outputNode "max_displacement";
  Connect func_motion_correct_A "oned_file" outputNode "movement_parameters";
  Connect func_get_dilate_mask "out_file" outputNode "mask";
  Connect func_edge_detect "out_file" outputNode "skullstrip";
  Connect func_mean_skullstrip "out_file" outputNode "example_func";
  Connect func_normalize "out_file" outputNode "preprocessed";
  Connect func_mask_normalize "out_file" outputNode "preprocessed_mask"
]%string.

(** The nodes of the workflow: [connect] adds both ends of an edge. *)
Definition workflow_nodes : list node :=
  remove_dups (flat_map (fun c => [src c; dst c]) connections).

(** The motion-correction steps are the nodes that run [3dvolreg]. *)
Definition is_motion_correction (n : node) : bool :=
  bool_decide (node_interface n = Threedvolreg).

(** The edges that feed input [port] of node [n]. *)
Definition feeds (n : node) (port : string) : list (node * string) :=
  omap (fun c =>
          if bool_decide (dst c = n) && bool_decide (dst_port c = port)
          then Some (src c, src_port c) else None)
       connections.

(** [edge a b]: some output of [a] is an input of [b]. *)
Definition edge (a b : node) : Prop :=
  exists c, c ∈ connections /\ src c = a /\ dst c = b.

(** [depends_on b a]: [b] is downstream of [a] in the graph. *)
Inductive depends_on : node -> node -> Prop :=
  | dep_edge a b : edge a b -> depends_on b a
  | dep_trans a b c : depends_on b a -> depends_on c b -> depends_on c a.

(** An execution order assigns every node the step at which it runs; it
    respects the graph when every edge goes forward in time. *)
Definition respects_graph (step : node -> nat) : Prop :=
  forall c, c ∈ connections -> (step (src c) < step (dst c))%nat.

(** One order that respects the graph: the order of the docstring. *)
Definition docstring_order (n : node) : nat :=
  match n with
  | inputNode => 0
  | func_get_idx => 1
  | func_drop_trs => 2
  | func_deoblique => 3
  | func_reorient => 4
  | func_get_mean_RPI => 5
  | func_motion_correct => 6
  | func_get_mean_motion => 7
  | func_motion_correct_A => 8
  | func_get_dilate_mask => 9
  | func_edge_detect => 10
  | func_normalize => 11
  | func_mean_skullstrip => 12
  | func_mask_normalize => 13
  | outputNode => 14
  end%nat.

End FuncPreproc.

(** ** [cpac_ga_model_generator.py] *)

Module GroupAnalysis.

(** *** Reading the group subject list (lines 45-50) *)

(** [f.readlines()]: the text cut after every newline, each line keeping
    its terminator; a last line without terminator is kept as it is. *)
Fixpoint readlines (text : str) : list str :=
  match text with
  | [] => []
  | c :: text' =>
      if is_nl c then [c] :: readlines text'
      else
        match readlines text' with
        | [] => [[c]]
        | line :: lines => (c :: line) :: lines
        end
  end.

(** The condition of the list comprehension, line 50. *)
Definition keep_line (line : str) : bool :=
  negb (str_eqb line [newline]) && negb (startswith [hash] line).

(** [group_sublist], lines 47-50. *)
Definition parse_subject_list (text : str) : list str :=
  map rstrip_nl (List.filter keep_line (readlines text)).

(** The same list following the words of the specification: the text is
    cut at its newlines, and the empty pieces and the pieces that start
    with [#] are dropped. *)
Fixpoint lines_of (text : str) : list str :=
  match text with
  | [] => [[]]
  | c :: text' =>
      if is_nl c then [] :: lines_of text'
      else
        match lines_of text' with
        | line :: lines => (c :: line) :: lines
        | [] => [[c]]
        end
  end.

Definition is_entry (line : str) : bool :=
  negb (str_eqb line []) && negb (startswith [hash] line).

Definition nonblank_noncomment_lines (text : str) : list str :=
  List.filter is_entry (lines_of text).

(** *** Dropping subjects without derivatives (lines 53-166) *)

(** The test guarding the two [append]s of lines 132-151 for one
    subject-list entry and one candidate path. With repeated measures the
    entry is cut at its commas (lines 110-117) and each piece must occur in
    the path; without, the entry itself must occur in the path. *)
Definition path_matches (repeated_measures : bool) (ga_sub path : str) : bool :=
  if repeated_measures then
    if (count_char comma ga_sub =? 1)%nat then
      let sub_id := nth 0 (split_char comma 1 ga_sub) [] in
      let other_id := nth 1 (split_char comma 1 ga_sub) [] in
      in_str sub_id path && in_str other_id path
    else if (count_char comma ga_sub =? 2)%nat then
      let sub_id := nth 0 (split_char comma 2 ga_sub) [] in
      let scan_id := nth 1 (split_char comma 2 ga_sub) [] in
      let session_id := nth 2 (split_char comma 2 ga_sub) [] in
      in_str sub_id path && in_str scan_id path && in_str session_id path
    else false
  else in_str ga_sub path.

(** The two lists the loop grows: [exist_paths] and [derivative_paths]. *)
Record kept : Type := Kept {
  exist_paths : list str;
  derivative_paths : list str
}.

(** [for path in s_paths], lines 132-151. *)
Fixpoint scan_paths (repeated_measures : bool) (ga_sub : str)
    (s_paths : list str) (k : kept) : kept :=
  match s_paths with
  | [] => k
  | path :: rest =>
      scan_paths repeated_measures ga_sub rest
        (if path_matches repeated_measures ga_sub path
         then Kept (exist_paths k ++ [ga_sub]) (derivative_paths k ++ [path])
         else k)
  end.

(** The format check at the head of the loop body, lines 68-95. *)
Definition check_format (repeated_measures : bool) (ga_sub : str) : result unit :=
  if repeated_measures && negb (in_str [comma] ga_sub) then
    Err RepeatedMeasuresFormat
  else if negb repeated_measures && in_str [comma] ga_sub then
    Err NotRepeatedMeasuresFormat
  else Ok tt.

(** [for ga_sub in group_sublist], lines 61-164. The test of line 156 is
    in the loop body: it runs after every subject, on the paths kept so
    far. *)
Fixpoint subject_loop (repeated_measures : bool) (s_paths : list str)
    (group_sublist : list str) (k : kept) : result kept :=
  match group_sublist with
  | [] => Ok k
  | ga_sub :: rest =>
      _ ← check_format repeated_measures ga_sub;
      let k' := scan_paths repeated_measures ga_sub s_paths k in
      if (length (derivative_paths k') =? 0)%nat then Err NoDerivatives
      else subject_loop repeated_measures s_paths rest k'
  end.

(** Lines 53-166: both lists start empty. *)
Definition filter_subjects (repeated_measures : bool) (s_paths : list str)
    (group_sublist : list str) : result kept :=
  subject_loop repeated_measures s_paths group_sublist (Kept [] []).

(** *** Writing the new subject list (lines 199-200) *)

(** [print >>f, sub] for every kept entry: the entry and a newline. *)
Definition write_subject_list (exist_paths : list str) : str :=
  flat_map (fun sub => sub ++ [newline]) exist_paths.

(** *** The motion-statistics parameter file (lines 224-263) *)

Section MotionParameters.

(** [os.path.exists] on the filesystem as it is during the call. *)
Variable path_exists : str -> bool.

(** [1 in c.runGenerateMotionStatistics] *)
Definition motion_statistics_required (runGenerateMotionStatistics : list Z) : bool :=
  existsb (Z.eqb 1) runGenerateMotionStatistics.

(** Lines 224-263, from the value [parameter_file] has when line 224 is
    reached; the result is its value after the statement. In the [else]
    branch the loop of line 259 reads [measure_list], a name that is bound
    nowhere in the function or the module: the branch raises [NameError]
    there, before a measure is looked at and before line 263. *)
Definition resolve_parameter_file (runGenerateMotionStatistics : list Z)
    (parameter_file : str) : result (option str) :=
  if motion_statistics_required runGenerateMotionStatistics then
    if negb (path_exists parameter_file)
    then Err (ParameterFileMissing parameter_file)
    else Ok (Some parameter_file)
  else if negb (motion_statistics_required runGenerateMotionStatistics)
          && path_exists parameter_file then
    if negb (path_exists parameter_file)
    then Err (ParameterFileMissing parameter_file)
    else Ok (Some parameter_file)
  else Err (NameError "measure_list").

End MotionParameters.

(** *** The name of the strategy directory (lines 363-369) *)

(** [s.replace(c, repl)] for a one-character [c]. *)
Definition replace_char (c : ascii) (repl : str) (s : str) : str :=
  flat_map (fun x => if ascii_eqb x c then repl else [x]) s.

(** [strgy_path_name] from the value [strgy_path] has at line 361. *)
Definition strgy_path_name (strgy_path : str) : str :=
  let strgy_path :=
    fold_left (fun strgy_path ch =>
                 if in_str [ch] strgy_path
                 then replace_char ch (py "_") strgy_path
                 else strgy_path)
              ["."%char] strgy_path in
  replace_char slash (py "__") strgy_path.

(** *** Vocabulary of the properties *)

(** The pieces joined back with a newline between two of them. *)
Fixpoint join_lines (lines : list str) : str :=
  match lines with
  | [] => []
  | [line] => line
  | line :: rest => line ++ newline :: join_lines rest
  end.

(** How many candidate paths the entry matches. *)
Definition matching_paths (repeated_measures : bool) (ga_sub : str)
    (s_paths : list str) : nat :=
  length (List.filter (path_matches repeated_measures ga_sub) s_paths).


(** The entry does not have the format the repeated-measures flag asks
    for: comma-joined identifiers with the flag, a plain identifier
    without. *)
Definition format_mismatch (repeated_measures : bool) (ga_sub : str) : bool :=
  if repeated_measures then negb (in_str [comma] ga_sub)
  else in_str [comma] ga_sub.

(** An entry as subject-list parsing produces them: not empty, not a
    comment, and free of newlines. *)
Definition well_formed_entry (e : str) : Prop :=
  is_entry e = true /\ newline ∉ e.

(** The exception a format mismatch raises under the given flag. *)
Definition format_error (repeated_measures : bool) : error :=
  if repeated_measures then RepeatedMeasuresFormat else NotRepeatedMeasuresFormat.

(** The entry matches at least one candidate path. *)
Definition has_match (repeated_measures : bool) (s_paths : list str)
    (ga_sub : str) : bool :=
  (0 <? matching_paths repeated_measures ga_sub s_paths)%nat.

End GroupAnalysis.

(** ** Output path rewriting (lines 448-456) *)

Module PathRewrite.

(** The part of the syntax of Python's [re] the rules are written in:
    a pattern is a sequence of these. *)
Inductive atom : Type :=
  | LookBehind (kw : str)     (* (?<=kw) *)
  | Lit (kw : str)            (* the characters of kw *)
  | StarDot                   (* (.)* *)
  | OneOf (cs : list ascii).  (* [cs] *)

Abbreviation regex := (list atom).

(** [.] matches any character but a newline. *)
Definition dot (c : ascii) : bool := negb (is_nl c).

(** [match_at p before rest]: the pattern is tried at one position of the
    subject, [rest] being the text from that position on and [before] the
    text that precedes it, nearest character first. The result is the
    length of the match. [(.)*] is greedy: it first takes as many
    characters as it can, and gives them back one at a time while the rest
    of the pattern fails. *)
Fixpoint match_at (p : regex) : str -> str -> option nat :=
  match p with
  | [] => fun _ _ => Some O
  | a :: p' =>
      let k := match_at p' in
      match a with
      | LookBehind kw => fun before rest =>
          if startswith (rev kw) before then k before rest else None
      | Lit kw => fun before rest =>
          if startswith kw rest
          then n ← k (rev kw ++ before) (drop (length kw) rest);
               Some (length kw + n)%nat
          else None
      | OneOf cs => fun before rest =>
          match rest with
          | c :: rest' =>
              if existsb (ascii_eqb c) cs then S <$> k (c :: before) rest'
              else None
          | [] => None
          end
      | StarDot =>
          fix star (before rest : str) : option nat :=
            match rest with
            | c :: rest' =>
                if dot c then
                  match star (c :: before) rest' with
                  | Some n => Some (S n)
                  | None => k before rest
                  end
                else k before rest
            | [] => k before rest
            end
      end
  end.

(** [re.sub(p, repl, s)] scans [s] from the left: at a position where the
    pattern matches, [repl] is written and the scan resumes after the
    match ([skip] counts the matched characters still to pass); elsewhere
    the character is copied. An empty match is not replaced here: every
    pattern of this file ends in [[/]] and matches at least one
    character. *)
Fixpoint sub_scan (p : regex) (repl : str) (before : str) (skip : nat)
    (s : str) : str :=
  match s with
  | [] => []
  | c :: s' =>
      match skip with
      | S n => sub_scan p repl (c :: before) n s'
      | O =>
          match match_at p before s with
          | Some (S n) => repl ++ sub_scan p repl (c :: before) n s'
          | _ => c :: sub_scan p repl (c :: before) O s'
          end
      end
  end.

Definition re_sub (p : regex) (repl : str) (s : str) : str :=
  sub_scan p repl [] O s.

(** [ds.inputs.regexp_substitutions], lines 448-456, in list order. *)
Definition regexp_substitutions : list (regex * str) := [
  (* (?<=rendered)(.)*[/] *)
  ([LookBehind (py "rendered"); StarDot; OneOf [slash]], py "/");
  (* (?<=model_files)(.)*[/] *)
  ([LookBehind (py "model_files"); StarDot; OneOf [slash]], py "/");
  (* (?<=merged)(.)*[/] *)
  ([LookBehind (py "merged"); StarDot; OneOf [slash]], py "/");
  (* (?<=stats/clusterMap)(.)*[/] *)
  ([LookBehind (py "stats/clusterMap"); StarDot; OneOf [slash]], py "/");
  (* (?<=stats/unthreshold)(.)*[/] *)
  ([LookBehind (py "stats/unthreshold"); StarDot; OneOf [slash]], py "/");
  (* (?<=stats/threshold)(.)*[/] *)
  ([LookBehind (py "stats/threshold"); StarDot; OneOf [slash]], py "/");
  (* _cluster(.)*[/] *)
  ([Lit (py "_cluster"); StarDot; OneOf [slash]], py "");
  (* _slicer(.)*[/] *)
  ([Lit (py "_slicer"); StarDot; OneOf [slash]], py "");
  (* _overlay(.)*[/] *)
  ([Lit (py "_overlay"); StarDot; OneOf [slash]], py "")
].

(** The data sink applies the substitutions one after the other, each to
    the result of the one before. *)
Definition substitute (substitutions : list (regex * str)) (pathstr : str) : str :=
  fold_left (fun pathstr '(key, val) => re_sub key val pathstr)
            substitutions pathstr.

(** *** Vocabulary of the properties *)

(** The length of the greedy match of [(.)*[/]] at the head of [s]: the
    characters up to the last slash of the first line of [s], that slash
    included. *)
Fixpoint last_slash (s : str) : option nat :=
  match s with
  | [] => None
  | c :: s' =>
      if is_nl c then None
      else
        match last_slash s' with
        | Some n => Some (S n)
        | None => if ascii_eqb c slash then Some 1%nat else None
        end
  end.

(** The two shapes of rule in the list: a look-behind on a keyword with
    the match replaced by a slash, and a keyword with the match removed. *)
Inductive shape : Type := Behind | Strip.

Definition rule (sh : shape) (kw : str) : regex * str :=
  match sh with
  | Behind => ([LookBehind kw; StarDot; OneOf [slash]], [slash])
  | Strip => ([Lit kw; StarDot; OneOf [slash]], [])
  end.

Definition rules : list (shape * str) := [
  (Behind, py "rendered"); (Behind, py "model_files"); (Behind, py "merged");
  (Behind, py "stats/clusterMap"); (Behind, py "stats/unthreshold");
  (Behind, py "stats/threshold");
  (Strip, py "_cluster"); (Strip, py "_slicer"); (Strip, py "_overlay")
].

(** [occurs kw w]: the keyword is a substring of [w]. *)
Definition occurs (kw w : str) : Prop := exists u v, w = u ++ kw ++ v.

(** [settled sh kw l]: the rule has nothing left to rewrite in the line
    [l]. Before the last slash of the line, a stripped keyword does not
    occur at all, and a looked-behind keyword occurs at most at the very
    end. *)
Definition settled (sh : shape) (kw : str) (l : str) : Prop :=
  forall w t, l = w ++ slash :: t -> slash ∉ t ->
    match sh with
    | Behind => forall u v, w = u ++ kw ++ v -> v = []
    | Strip => ~ occurs kw w
    end.

(** [below l' l]: the text before the last slash of [l'], if [l'] has a
    slash, is a prefix of the text before the last slash of [l]. *)
Definition below (l' l : str) : Prop :=
  forall w' t', l' = w' ++ slash :: t' -> slash ∉ t' ->
    exists z t, l = w' ++ z ++ slash :: t /\ slash ∉ t.

(** The substitutions of a list of rules, applied in order. *)
Definition rewrite_with (rs : list (shape * str)) (pathstr : str) : str :=
  substitute (map (fun r => rule r.1 r.2) rs) pathstr.

End PathRewrite.

(** * Properties *)

(** ** Strings *)

Lemma ascii_eqb_eq (a b : ascii) : ascii_eqb a b = true <-> a = b.
Proof. apply Ascii.eqb_eq. Qed.

Lemma ascii_eqb_refl (a : ascii) : ascii_eqb a a = true.
Proof. by apply ascii_eqb_eq. Qed.

Lemma ascii_eqb_neq (a b : ascii) : ascii_eqb a b = false <-> a <> b.
Proof. apply Ascii.eqb_neq. Qed.

Lemma is_nl_true (c : ascii) : is_nl c = true <-> c = newline.
Proof. apply ascii_eqb_eq. Qed.

Lemma is_nl_false (c : ascii) : is_nl c = false <-> c <> newline.
Proof. apply ascii_eqb_neq. Qed.

Lemma str_eqb_eq (a b : str) : str_eqb a b = true <-> a = b.
Proof.
  revert b. induction a as [|x a IH]; intros [|y b]; simpl; try done.
  rewrite andb_true_iff, ascii_eqb_eq, IH. split.
  - by intros [-> ->].
  - by intros [= -> ->].
Qed.

Lemma str_eqb_refl (a : str) : str_eqb a a = true.
Proof. by apply str_eqb_eq. Qed.

Lemma str_eqb_neq (a b : str) : str_eqb a b = false <-> a <> b.
Proof.
  rewrite <- not_true_iff_false, str_eqb_eq. done.
Qed.

(** [startswith] decides "is a prefix of". *)
Lemma startswith_spec (p s : str) :
  startswith p s = true <-> exists v, s = p ++ v.
Proof.
  revert s. induction p as [|x p IH]; intros s; simpl.
  - split; [intros _; by exists s | done].
  - destruct s as [|y s].
    + split; [done | intros [v [=]]].
    + rewrite andb_true_iff, ascii_eqb_eq, IH. split.
      * intros [-> [v ->]]. by exists v.
      * intros [v [= -> ->]]. split; [done | by exists v].
Qed.

(** [in_str] decides "occurs as a substring of". *)
Lemma in_str_spec (needle hay : str) :
  in_str needle hay = true <-> exists u v, hay = u ++ needle ++ v.
Proof.
  induction hay as [|y hay IH]; simpl.
  - rewrite orb_false_r, startswith_spec. split.
    + intros [v Hv]. by exists [], v.
    + intros [u [v Huv]]. symmetry in Huv.
      apply app_eq_nil in Huv as [-> Huv].
      apply app_eq_nil in Huv as [-> ->]. by exists [].
  - rewrite orb_true_iff, startswith_spec, IH. split.
    + intros [[v Hv] | [u [v Huv]]].
      * by exists [], v.
      * exists (y :: u), v. by rewrite Huv.
    + intros [[|x u] [v Huv]].
      * left. by exists v.
      * right. injection Huv as -> ->. by exists u, v.
Qed.

Lemma rstrip_nl_no_newline (s : str) : newline ∉ s -> rstrip_nl s = s.
Proof.
  induction s as [|x s IH]; [done|]. intros Hs.
  apply not_elem_of_cons in Hs as [Hx Hs]. simpl. rewrite (IH Hs).
  destruct s; [|done].
  assert (is_nl x = false) as -> by (apply is_nl_false; congruence). done.
Qed.

Lemma rstrip_nl_snoc (s : str) : newline ∉ s -> rstrip_nl (s ++ [newline]) = s.
Proof.
  induction s as [|x s IH]; [done|]. intros Hs.
  apply not_elem_of_cons in Hs as [Hx Hs]. simpl. rewrite (IH Hs).
  destruct s as [|y s]; [|done].
  assert (is_nl x = false) as -> by (apply is_nl_false; congruence). done.
Qed.

(** ** [get_idx] *)

Module FuncPreprocProps.
Import FuncPreproc.

(** C1 (as amended). For an image with [nvols] volumes, the start index
    resolves to 0 when it is unset, negative or above [nvols - 1], and is
    returned unchanged otherwise; the stop index resolves to [nvols - 1]
    when it is unset or above [nvols - 1], and is returned unchanged
    otherwise, a negative stop index included ([nvols] being a volume
    count, hence not negative). So an out-of-range start
    index always resolves to the boundary 0 and a stop index above
    [nvols - 1] to the boundary [nvols - 1]. *)
Theorem get_idx_resolves (img : image) (nvols : Z) (stop_idx start_idx : option Z) :
  data_shape img !! 3%nat = Some nvols ->
  exists stopidx startidx,
    get_idx img stop_idx start_idx = Ok (stopidx, startidx) /\
    (start_idx = None -> startidx = 0) /\
    (forall s, start_idx = Some s -> s < 0 \/ s > nvols - 1 -> startidx = 0) /\
    (forall s, start_idx = Some s -> 0 <= s <= nvols - 1 -> startidx = s) /\
    (stop_idx = None -> stopidx = nvols - 1) /\
    (forall e, stop_idx = Some e -> e > nvols - 1 -> stopidx = nvols - 1) /\
    (forall e, stop_idx = Some e -> e <= nvols - 1 -> stopidx = e) /\
    (forall e, stop_idx = Some e -> 0 <= nvols -> e < 0 -> stopidx = e).
Proof.
  intros Hshape. unfold get_idx. rewrite Hshape.
  eexists _, _. split; [reflexivity|].
  repeat split.
  - by intros ->.
  - intros s -> Hs.
    destruct (Z.ltb_spec s 0); [done|].
    destruct (Z.gtb_spec s (nvols - 1)); [done|]. simpl. lia.
  - intros s -> Hs.
    destruct (Z.ltb_spec s 0); [lia|].
    destruct (Z.gtb_spec s (nvols - 1)); [lia|]. done.
  - by intros ->.
  - intros e -> He. destruct (Z.gtb_spec e (nvols - 1)); [done | lia].
  - intros e -> He. destruct (Z.gtb_spec e (nvols - 1)); [lia | done].
  - intros e -> Hn He. destruct (Z.gtb_spec e (nvols - 1)); [lia | done].
Qed.

Lemma get_idx_resolves_witness :
  exists stopidx startidx,
    get_idx {| data_shape := [64; 64; 30; 10] |} (Some 25) (Some (-2))
      = Ok (stopidx, startidx) /\ stopidx = 9 /\ startidx = 0.
Proof.
  destruct (get_idx_resolves {| data_shape := [64; 64; 30; 10] |} 10
              (Some 25) (Some (-2)) eq_refl)
    as (stopidx & startidx & Hrun & _ & Hlow & _ & _ & Hhigh & _).
  exists stopidx, startidx. split; [exact Hrun|]. split.
  - apply (Hhigh 25 eq_refl). lia.
  - apply (Hlow (-2) eq_refl). lia.
Defined.

(** A start/stop pair lying wholly outside [0, nvols - 1] whose stop index
    does not resolve to a boundary value: a negative stop index is
    returned as it is. *)
Lemma get_idx_negative_stop_not_clamped :
  get_idx {| data_shape := [64; 64; 30; 10] |} (Some (-1)) (Some (-1))
    = Ok (-1, 0) /\
  ~ (0 <= -1 <= 10 - 1) /\ -1 <> 10 - 1.
Proof. split; [reflexivity | lia]. Qed.

(** ** The workflow graph *)

Lemma respects_graph_docstring_order : respects_graph docstring_order.
Proof.
  unfold respects_graph. apply Forall_forall.
  unfold connections. repeat constructor.
Qed.

Lemma depends_on_later (step : node -> nat) (a b : node) :
  respects_graph step -> depends_on b a -> (step a < step b)%nat.
Proof.
  intros Hstep Hdep. induction Hdep as [a b (c & Hc & <- & <-) | a b c _ IH1 _ IH2].
  - by apply Hstep.
  - lia.
Qed.

Lemma connection_edge (c : connection) : c ∈ connections -> edge (src c) (dst c).
Proof. intros Hc. by exists c. Qed.

Lemma edge_mean_RPI_pass1 : edge func_get_mean_RPI func_motion_correct.
Proof.
  apply (connection_edge (Connect func_get_mean_RPI "out_file" func_motion_correct "basefile")).
  unfold connections. set_solver.
Qed.

Lemma edge_pass1_mean_motion : edge func_motion_correct func_get_mean_motion.
Proof.
  apply (connection_edge (Connect func_motion_correct "out_file" func_get_mean_motion "in_file")).
  unfold connections. set_solver.
Qed.

Lemma edge_mean_motion_pass2 : edge func_get_mean_motion func_motion_correct_A.
Proof.
  apply (connection_edge (Connect func_get_mean_motion "out_file" func_motion_correct_A "basefile")).
  unfold connections. set_solver.
Qed.

(** C7. The workflow has exactly two motion-correction nodes. The base
    file of the first comes from [func_get_mean_RPI], the mean of the
    reoriented data, which is downstream of no motion-correction node; the
    base file of the second comes from [func_get_mean_motion], the mean of
    the first pass's output. The second pass therefore depends on the
    first, the first does not depend on the second, and every execution
    order that respects the graph runs the first pass before the second. *)
Theorem motion_correction_two_pass :
  List.filter is_motion_correction workflow_nodes
    = [func_motion_correct; func_motion_correct_A] /\
  feeds func_motion_correct "basefile" = [(func_get_mean_RPI, "out_file"%string)] /\
  feeds func_get_mean_RPI "in_file" = [(func_reorient, "out_file"%string)] /\
  (forall m, is_motion_correction m = true -> ~ depends_on func_get_mean_RPI m) /\
  feeds func_motion_correct_A "basefile" = [(func_get_mean_motion, "out_file"%string)] /\
  feeds func_get_mean_motion "in_file" = [(func_motion_correct, "out_file"%string)] /\
  depends_on func_motion_correct_A func_motion_correct /\
  ~ depends_on func_motion_correct func_motion_correct_A /\
  (forall step, respects_graph step ->
     (step func_motion_correct < step func_get_mean_motion
        < step func_motion_correct_A)%nat).
Proof.
  repeat split; try reflexivity.
  - intros m Hm Hdep.
    apply (depends_on_later docstring_order) in Hdep;
      [|apply respects_graph_docstring_order].
    destruct m; vm_compute in Hm; try discriminate Hm; simpl in Hdep; lia.
  - eapply dep_trans; apply dep_edge;
      [apply edge_pass1_mean_motion | apply edge_mean_motion_pass2].
  - intros Hdep.
    apply (depends_on_later docstring_order) in Hdep;
      [|apply respects_graph_docstring_order].
    simpl in Hdep. lia.
  - apply (depends_on_later step); [done|].
    apply dep_edge, edge_pass1_mean_motion.
  - apply (depends_on_later step); [done|].
    apply dep_edge, edge_mean_motion_pass2.
Qed.

Lemma motion_correction_two_pass_witness :
  respects_graph docstring_order /\
  (docstring_order func_motion_correct < docstring_order func_motion_correct_A)%nat.
Proof.
  split; [apply respects_graph_docstring_order|].
  destruct motion_correction_two_pass as (_ & _ & _ & _ & _ & _ & _ & _ & Horder).
  specialize (Horder docstring_order respects_graph_docstring_order). lia.
Defined.

End FuncPreprocProps.

(** ** The group subject list *)

Module GroupAnalysisProps.
Import GroupAnalysis.

Lemma readlines_nil (text : str) : readlines text = [] -> text = [].
Proof.
  destruct text as [|c text]; [done|]. simpl.
  destruct (is_nl c); [done|]. by destruct (readlines text).
Qed.

Lemma lines_of_no_newline (text : str) :
  Forall (fun line => newline ∉ line) (lines_of text).
Proof.
  induction text as [|c text IH]; simpl.
  - repeat constructor. by apply not_elem_of_nil.
  - destruct (is_nl c) eqn:Hc.
    + constructor; [apply not_elem_of_nil | done].
    + apply is_nl_false in Hc.
      destruct (lines_of text) as [|line lines]; inversion IH; subst.
      * repeat constructor. rewrite not_elem_of_cons. split; [congruence|].
        apply not_elem_of_nil.
      * constructor; [|done]. rewrite not_elem_of_cons. split; [congruence | done].
Qed.

Lemma join_lines_of (text : str) : join_lines (lines_of text) = text.
Proof.
  induction text as [|c text IH]; [done|]. simpl.
  destruct (is_nl c) eqn:Hc.
  - apply is_nl_true in Hc as ->.
    destruct (lines_of text) eqn:Hl; simpl in *; [by subst | by rewrite IH].
  - destruct (lines_of text) as [|line [|line' lines]] eqn:Hl; simpl in *;
      by rewrite <- IH.
Qed.

Lemma keep_line_terminated (line : str) :
  newline ∉ line -> keep_line (line ++ [newline]) = is_entry line.
Proof.
  intros Hline. unfold keep_line, is_entry. destruct line as [|x line]; [done|].
  simpl. apply not_elem_of_cons in Hline as [Hx Hline].
  destruct line as [|y line]; simpl.
  - assert (ascii_eqb x newline = false) as -> by (apply ascii_eqb_neq; congruence).
    done.
  - by rewrite andb_false_r.
Qed.

Lemma keep_line_unterminated (line : str) :
  newline ∉ line -> line <> [] -> keep_line line = is_entry line.
Proof.
  intros Hline Hne. unfold keep_line, is_entry.
  assert (str_eqb line [newline] = false) as ->.
  { apply str_eqb_neq. intros ->. apply Hline. by left. }
  assert (str_eqb line [] = false) as ->; [|done].
  by apply str_eqb_neq.
Qed.

(** How [readlines] and the cut at newlines correspond, line by line. *)
Lemma readlines_lines_of (text : str) :
  match readlines text, lines_of text with
  | [], l => text = [] /\ l = [[]]
  | line :: rl, l0 :: ls =>
      (line = l0 ++ [newline] /\
       map rstrip_nl (List.filter keep_line rl) = List.filter is_entry ls) \/
      (line = l0 /\ l0 <> [] /\ rl = [] /\ ls = [])
  | _ :: _, [] => False
  end.
Proof.
  induction text as [|c text IH]; [done|]. simpl.
  destruct (is_nl c) eqn:Hc.
  - apply is_nl_true in Hc as ->. left. split; [done|].
    pose proof (lines_of_no_newline text) as Hnl.
    destruct (readlines text) as [|line rl].
    + destruct IH as [_ ->]. done.
    + destruct (lines_of text) as [|l0 ls]; [done|].
      inversion Hnl as [|? ? Hl0 _]; subst.
      destruct IH as [[-> IH] | (-> & Hne & -> & ->)]; simpl.
      * rewrite keep_line_terminated by done.
        destruct (is_entry l0); simpl; [|done].
        by rewrite rstrip_nl_snoc, IH.
      * rewrite keep_line_unterminated by done.
        destruct (is_entry l0); simpl; [|done].
        by rewrite rstrip_nl_no_newline.
  - destruct (readlines text) as [|line rl].
    + destruct IH as [-> ->]. right. done.
    + destruct (lines_of text) as [|l0 ls]; [done|].
      destruct IH as [[-> IH] | (-> & Hne & -> & ->)].
      * left. done.
      * right. done.
Qed.

Lemma parse_eq_nonblank_lines (text : str) :
  parse_subject_list text = nonblank_noncomment_lines text.
Proof.
  unfold parse_subject_list, nonblank_noncomment_lines.
  pose proof (readlines_lines_of text) as H.
  pose proof (lines_of_no_newline text) as Hnl.
  destruct (readlines text) as [|line rl].
  - destruct H as [_ ->]. done.
  - destruct (lines_of text) as [|l0 ls]; [done|].
    inversion Hnl as [|? ? Hl0 _]; subst.
    destruct H as [[-> H] | (-> & Hne & -> & ->)]; simpl.
    + rewrite keep_line_terminated by done.
      destruct (is_entry l0); simpl; [|done].
      by rewrite rstrip_nl_snoc, H.
    + rewrite keep_line_unterminated by done.
      destruct (is_entry l0); simpl; [|done].
      by rewrite rstrip_nl_no_newline.
Qed.

Lemma is_entry_spec (line : str) :
  is_entry line = true <-> line <> [] /\ forall rest, line <> hash :: rest.
Proof.
  unfold is_entry. rewrite andb_true_iff, !negb_true_iff, str_eqb_neq.
  destruct line as [|c line].
  - split; [by intros [? _] | by intros [? _]].
  - change (startswith [hash] (c :: line)) with (ascii_eqb hash c && true).
    rewrite andb_true_r, ascii_eqb_neq. split.
    + intros [_ Hc]. split; [done|]. intros rest [= -> _]. done.
    + intros [_ Hc]. split; [done|]. intros <-. by apply (Hc line).
Qed.

(** C5 (as amended). Parsing a subject-list text yields exactly its lines
    that are not empty and do not start with [#], in the order of the text
    and without their newline: the parsed list is the list of the pieces
    between the newlines of the text (pieces that hold no newline and
    that, joined by newlines, give the text back) from which the empty
    pieces and the pieces whose first character is [#] are dropped. Any
    other piece is an entry, a piece of blanks included. *)
Theorem parse_subject_list_spec (text : str) :
  parse_subject_list text = nonblank_noncomment_lines text /\
  join_lines (lines_of text) = text /\
  Forall (fun line => newline ∉ line) (lines_of text) /\
  (forall line, is_entry line = true <->
     line <> [] /\ forall rest, line <> hash :: rest) /\
  (forall e, e ∈ parse_subject_list text <->
     e ∈ lines_of text /\ e <> [] /\ forall rest, e <> hash :: rest) /\
  parse_subject_list
    (py "# subjects" ++ newline :: py "sub001" ++ newline :: newline ::
     py "sub002,scan_1" ++ newline :: py "#sub003" ++ newline :: py "sub004")
  = [py "sub001"; py "sub002,scan_1"; py "sub004"].
Proof.
  split; [apply parse_eq_nonblank_lines|]. split; [apply join_lines_of|].
  split; [apply lines_of_no_newline|]. split; [apply is_entry_spec|].
  split; [|reflexivity].
  intros e. rewrite parse_eq_nonblank_lines. unfold nonblank_noncomment_lines.
  rewrite list_elem_of_In, filter_In, <- list_elem_of_In, is_entry_spec.
  tauto.
Qed.

(** A line of blanks and a line that holds a carriage return alone are
    blank lines, and both are entries of the parsed list. *)
Lemma blank_line_is_an_entry :
  parse_subject_list (py "  " ++ newline :: py "sub001" ++ [newline])
    = [py "  "; py "sub001"] /\
  parse_subject_list ("013"%char :: newline :: py "sub001" ++ [newline])
    = [["013"%char]; py "sub001"].
Proof. split; reflexivity. Qed.

(** ** Dropping subjects without derivatives *)

Lemma scan_paths_spec (rm : bool) (ga_sub : str) (s_paths : list str) (k : kept) :
  exist_paths (scan_paths rm ga_sub s_paths k)
    = exist_paths k ++ replicate (matching_paths rm ga_sub s_paths) ga_sub /\
  derivative_paths (scan_paths rm ga_sub s_paths k)
    = derivative_paths k ++ List.filter (path_matches rm ga_sub) s_paths.
Proof.
  revert k. unfold matching_paths.
  induction s_paths as [|path rest IH]; intros k; simpl.
  - by rewrite !app_nil_r.
  - destruct (IH (if path_matches rm ga_sub path
                  then Kept (exist_paths k ++ [ga_sub]) (derivative_paths k ++ [path])
                  else k)) as [-> ->].
    destruct (path_matches rm ga_sub path); simpl; [|done].
    by rewrite <- !app_assoc.
Qed.

Lemma check_format_spec (rm : bool) (ga_sub : str) :
  check_format rm ga_sub
    = if format_mismatch rm ga_sub then Err (format_error rm) else Ok tt.
Proof.
  unfold check_format, format_mismatch, format_error.
  destruct rm, (in_str [comma] ga_sub); reflexivity.
Qed.

(** One turn of the subject loop. *)
Lemma subject_loop_cons (rm : bool) (s_paths : list str) (ga_sub : str)
    (rest : list str) (k : kept) :
  subject_loop rm s_paths (ga_sub :: rest) k =
    if format_mismatch rm ga_sub then Err (format_error rm)
    else if (length (derivative_paths (scan_paths rm ga_sub s_paths k)) =? 0)%nat
         then Err NoDerivatives
         else subject_loop rm s_paths rest (scan_paths rm ga_sub s_paths k).
Proof.
  simpl. rewrite check_format_spec. by destruct (format_mismatch rm ga_sub).
Qed.

Lemma subject_loop_app (rm : bool) (s_paths : list str) (l1 l2 : list str) (k : kept) :
  subject_loop rm s_paths (l1 ++ l2) k =
    match subject_loop rm s_paths l1 k with
    | Ok k1 => subject_loop rm s_paths l2 k1
    | Err e => Err e
    end.
Proof.
  revert k. induction l1 as [|ga_sub l1 IH]; intros k; [done|].
  rewrite <- app_comm_cons, !subject_loop_cons.
  destruct (format_mismatch rm ga_sub); [done|].
  destruct (_ =? _)%nat; [done|]. apply IH.
Qed.

(** What the loop has kept when it ends without raising. *)
Lemma subject_loop_ok (rm : bool) (s_paths : list str) (group_sublist : list str)
    (k k' : kept) :
  subject_loop rm s_paths group_sublist k = Ok k' ->
  exist_paths k' = exist_paths k ++
    flat_map (fun ga_sub => replicate (matching_paths rm ga_sub s_paths) ga_sub)
             group_sublist /\
  derivative_paths k' = derivative_paths k ++
    flat_map (fun ga_sub => List.filter (path_matches rm ga_sub) s_paths)
             group_sublist /\
  Forall (fun ga_sub => format_mismatch rm ga_sub = false) group_sublist.
Proof.
  revert k. induction group_sublist as [|ga_sub rest IH]; intros k.
  - intros [= ->]. by rewrite !app_nil_r.
  - rewrite subject_loop_cons.
    destruct (format_mismatch rm ga_sub) eqn:Hfmt; [done|].
    destruct (_ =? _)%nat; [done|]. intros Hrest.
    apply IH in Hrest as (-> & -> & Hall).
    destruct (scan_paths_spec rm ga_sub s_paths k) as [-> ->].
    simpl. rewrite <- !app_assoc. by repeat split; [..|constructor].
Qed.

(** The loop raises the no-derivatives failure only from an empty
    [derivative_paths]; once a path is kept it never does. *)
Lemma subject_loop_nonempty (rm : bool) (s_paths : list str)
    (group_sublist : list str) (k : kept) :
  derivative_paths k <> [] ->
  Forall (fun ga_sub => format_mismatch rm ga_sub = false) group_sublist ->
  exists k', subject_loop rm s_paths group_sublist k = Ok k' /\
             derivative_paths k' <> [].
Proof.
  revert k. induction group_sublist as [|ga_sub rest IH]; intros k Hk Hall.
  - by exists k.
  - inversion Hall as [|? ? Hfmt Hrest]; subst.
    rewrite subject_loop_cons, Hfmt.
    assert (derivative_paths (scan_paths rm ga_sub s_paths k) <> []) as Hk'.
    { destruct (scan_paths_spec rm ga_sub s_paths k) as [_ ->].
      destruct (derivative_paths k); done. }
    destruct (derivative_paths (scan_paths rm ga_sub s_paths k)) eqn:Hd; [done|].
    simpl. apply IH; [by rewrite Hd | done].
Qed.




Lemma lines_of_terminated (e text : str) :
  newline ∉ e -> lines_of (e ++ newline :: text) = e :: lines_of text.
Proof.
  induction e as [|x e IH]; intros He; simpl.
  - reflexivity.
  - apply not_elem_of_cons in He as [Hx He].
    assert (is_nl x = false) as -> by (apply is_nl_false; congruence).
    by rewrite IH.
Qed.

(** Reading back the file the driver writes gives the entries written. *)
Lemma parse_written_subject_list (l : list str) :
  Forall well_formed_entry l -> parse_subject_list (write_subject_list l) = l.
Proof.
  intros Hl.
  rewrite parse_eq_nonblank_lines.
  unfold nonblank_noncomment_lines, write_subject_list.
  induction Hl as [|e l [He Hnl] _ IH]; [done|]. simpl.
  rewrite <- app_assoc. simpl. rewrite lines_of_terminated by done.
  simpl. by rewrite He, IH.
Qed.

Lemma filter_subjects_ok (rm : bool) (s_paths group_sublist : list str) (k : kept) :
  filter_subjects rm s_paths group_sublist = Ok k ->
  exist_paths k =
    flat_map (fun ga_sub => replicate (matching_paths rm ga_sub s_paths) ga_sub)
             group_sublist /\
  derivative_paths k =
    flat_map (fun ga_sub => List.filter (path_matches rm ga_sub) s_paths)
             group_sublist /\
  Forall (fun ga_sub => format_mismatch rm ga_sub = false) group_sublist.
Proof. intros H. by apply subject_loop_ok in H. Qed.

Lemma kept_entries_listed (rm : bool) (s_paths group_sublist : list str) (k : kept) :
  filter_subjects rm s_paths group_sublist = Ok k ->
  forall e, e ∈ exist_paths k -> e ∈ group_sublist.
Proof.
  intros H e. apply filter_subjects_ok in H as (-> & _ & _).
  rewrite list_elem_of_In, in_flat_map. intros (x & Hx & He).
  apply list_elem_of_In in Hx, He. by apply elem_of_replicate in He as [-> _].
Qed.

Lemma flat_map_replicate_at_most_one (n : str -> nat) (l : list str) :
  (forall x, x ∈ l -> (n x <= 1)%nat) ->
  flat_map (fun x => replicate (n x) x) l = List.filter (fun x => (0 <? n x)%nat) l.
Proof.
  induction l as [|x l IH]; intros Hn; [done|]. simpl.
  rewrite IH by (intros y Hy; apply Hn; by right).
  assert (n x <= 1)%nat as Hx by (apply Hn; by left).
  destruct (n x) as [|[|m]]; simpl; [done | done | lia].
Qed.




(** C2 (as amended). When subject filtering completes and no listed
    subject matches more than one candidate path, the filtered list is
    exactly the list of the subjects that match a path, in the order of
    the group subject list: M entries when M of the N listed subjects
    match. For the subject list 001, 002, 003 and one path each for 001
    and 003, the filtered list is 001, 003. *)
Theorem filter_keeps_matching_subjects :
  (forall rm s_paths group_sublist k,
     filter_subjects rm s_paths group_sublist = Ok k ->
     (forall ga_sub, ga_sub ∈ group_sublist ->
        (matching_paths rm ga_sub s_paths <= 1)%nat) ->
     exist_paths k = List.filter (has_match rm s_paths) group_sublist /\
     length (exist_paths k)
       = length (List.filter (has_match rm s_paths) group_sublist)) /\
  exist_paths <$> filter_subjects false
                    [py "/out/pipe/001/alff.nii.gz"; py "/out/pipe/003/alff.nii.gz"]
                    [py "001"; py "002"; py "003"]
    = Ok [py "001"; py "003"].
Proof.
  split; [|reflexivity].
  intros rm s_paths group_sublist k Hk Hone.
  pose proof (filter_subjects_ok _ _ _ _ Hk) as (Hexist & _ & _).
  assert (exist_paths k = List.filter (has_match rm s_paths) group_sublist) as Heq.
  { rewrite Hexist.
    apply (flat_map_replicate_at_most_one
             (fun ga_sub => matching_paths rm ga_sub s_paths)), Hone. }
  split; [done | by rewrite Heq].
Qed.

Lemma filter_keeps_matching_subjects_witness :
  exists k,
    filter_subjects false
      [py "/out/pipe/001/alff.nii.gz"; py "/out/pipe/003/alff.nii.gz"]
      [py "001"; py "002"; py "003"] = Ok k /\
    exist_paths k = [py "001"; py "003"].
Proof.
  eexists. split; [reflexivity|].
  destruct filter_keeps_matching_subjects as [H _].
  destruct (H false
              [py "/out/pipe/001/alff.nii.gz"; py "/out/pipe/003/alff.nii.gz"]
              [py "001"; py "002"; py "003"] _ eq_refl) as (Heq & _).
  - intros ga_sub Hin.
    repeat (apply elem_of_cons in Hin as [-> | Hin]; [vm_compute; lia|]).
    by apply elem_of_nil in Hin.
  - exact Heq.
Defined.

(** Paths for two of three listed subjects, and a filtered list that is
    not the list of those two subjects: subject 001 has two matching
    paths and is kept twice. With paths for 002 and 003 only, the driver
    raises at the first subject and no filtered list is produced. *)
Lemma filter_keeps_more_than_matching_subjects :
  exist_paths <$> filter_subjects false
                    [py "/out/pipe/001/scan_1/alff.nii.gz";
                     py "/out/pipe/001/scan_2/alff.nii.gz";
                     py "/out/pipe/003/scan_1/alff.nii.gz"]
                    [py "001"; py "002"; py "003"]
    = Ok [py "001"; py "001"; py "003"] /\
  List.filter (has_match false
                 [py "/out/pipe/001/scan_1/alff.nii.gz";
                  py "/out/pipe/001/scan_2/alff.nii.gz";
                  py "/out/pipe/003/scan_1/alff.nii.gz"])
              [py "001"; py "002"; py "003"]
    = [py "001"; py "003"] /\
  filter_subjects false
    [py "/out/pipe/002/alff.nii.gz"; py "/out/pipe/003/alff.nii.gz"]
    [py "001"; py "002"; py "003"]
    = Err NoDerivatives.
Proof. repeat split; reflexivity. Qed.

Lemma subject_loop_ok_nonempty (rm : bool) (s_paths group_sublist : list str)
    (k k' : kept) :
  subject_loop rm s_paths group_sublist k = Ok k' ->
  group_sublist <> [] -> derivative_paths k' <> [].
Proof.
  destruct group_sublist as [|ga_sub rest]; [done|]. intros Hloop _.
  rewrite subject_loop_cons in Hloop.
  destruct (format_mismatch rm ga_sub); [done|].
  destruct (derivative_paths (scan_paths rm ga_sub s_paths k)) as [|d ds] eqn:Hd;
    [done|].
  simpl in Hloop. apply subject_loop_ok in Hloop as (_ & -> & _).
  by rewrite Hd.
Qed.

Lemma scan_paths_no_match (rm : bool) (ga_sub : str) (s_paths : list str) (k : kept) :
  matching_paths rm ga_sub s_paths = 0%nat -> scan_paths rm ga_sub s_paths k = k.
Proof.
  intros Hnone. destruct (scan_paths_spec rm ga_sub s_paths k) as [He Hd].
  rewrite Hnone in He. unfold matching_paths in Hnone.
  apply length_zero_iff_nil in Hnone. rewrite Hnone in Hd.
  simpl in He. rewrite app_nil_r in He, Hd.
  destruct (scan_paths rm ga_sub s_paths k), k. simpl in *. by subst.
Qed.

(** The two ways the loop raises. *)
Lemma subject_loop_err (rm : bool) (s_paths group_sublist : list str)
    (k : kept) (e : error) :
  subject_loop rm s_paths group_sublist k = Err e ->
  (e = format_error rm /\
   exists ga_sub, ga_sub ∈ group_sublist /\ format_mismatch rm ga_sub = true) \/
  e = NoDerivatives.
Proof.
  revert k. induction group_sublist as [|ga_sub rest IH]; intros k; [done|].
  rewrite subject_loop_cons.
  destruct (format_mismatch rm ga_sub) eqn:Hfmt.
  - intros [= <-]. left. split; [done|]. exists ga_sub. split; [by left | done].
  - destruct (_ =? _)%nat.
    + intros [= <-]. by right.
    + intros Hrest. apply IH in Hrest as [(He & s & Hs & Hmis) | He]; [|by right].
      left. split; [done|]. exists s. split; [by right | done].
Qed.

(** C3 (as amended). Subject filtering fails fatally when the subject
    list is not empty and no candidate path matches any listed subject:
    it raises, and raises the no-derivatives failure when the entries have
    the format the flag asks for. A listed subject that matches no path
    does not by itself make the driver fail: after subjects that were
    filtered without failure, such a subject is skipped and the lists kept
    so far are unchanged. *)
Theorem no_derivatives_is_fatal :
  (forall rm s_paths group_sublist,
     group_sublist <> [] ->
     (forall ga_sub, ga_sub ∈ group_sublist ->
        matching_paths rm ga_sub s_paths = 0%nat) ->
     is_ok (filter_subjects rm s_paths group_sublist) = false /\
     (Forall (fun ga_sub => format_mismatch rm ga_sub = false) group_sublist ->
      filter_subjects rm s_paths group_sublist = Err NoDerivatives)) /\
  (forall rm s_paths group_sublist ga_sub k,
     filter_subjects rm s_paths group_sublist = Ok k ->
     group_sublist <> [] ->
     format_mismatch rm ga_sub = false ->
     matching_paths rm ga_sub s_paths = 0%nat ->
     filter_subjects rm s_paths (group_sublist ++ [ga_sub]) = Ok k).
Proof.
  split.
  - intros rm s_paths [|ga_sub rest] Hne Hnone; [done|].
    unfold filter_subjects. rewrite subject_loop_cons.
    rewrite scan_paths_no_match by (apply Hnone; by left). simpl.
    destruct (format_mismatch rm ga_sub) eqn:Hfmt; [|done].
    split; [done|]. intros Hall. inversion Hall; subst. congruence.
  - intros rm s_paths group_sublist ga_sub k Hk Hne Hfmt Hnone.
    unfold filter_subjects in *. rewrite subject_loop_app, Hk, subject_loop_cons.
    rewrite Hfmt, scan_paths_no_match by done.
    pose proof (subject_loop_ok_nonempty _ _ _ _ _ Hk Hne) as Hd.
    destruct (derivative_paths k); done.
Qed.

Lemma no_derivatives_is_fatal_witness :
  filter_subjects false [py "/out/pipe/003/alff.nii.gz"] [py "001"; py "002"]
    = Err NoDerivatives /\
  filter_subjects false [py "/out/pipe/001/alff.nii.gz"] ([py "001"] ++ [py "002"])
    = Ok (Kept [py "001"] [py "/out/pipe/001/alff.nii.gz"]).
Proof.
  destruct no_derivatives_is_fatal as [Hnone Hskip]. split.
  - apply (Hnone false [py "/out/pipe/003/alff.nii.gz"] [py "001"; py "002"]).
    + discriminate.
    + intros ga_sub Hin.
      repeat (apply elem_of_cons in Hin as [-> | Hin]; [reflexivity|]).
      by apply elem_of_nil in Hin.
    + repeat constructor.
  - apply (Hskip false [py "/out/pipe/001/alff.nii.gz"] [py "001"] (py "002")).
    + reflexivity.
    + discriminate.
    + reflexivity.
    + reflexivity.
Defined.

(** A listed subject with zero matching paths, and no failure: subject
    002 follows a subject that matched. *)
Lemma unmatched_subject_is_not_fatal :
  matching_paths false (py "002") [py "/out/pipe/001/alff.nii.gz"] = 0%nat /\
  filter_subjects false [py "/out/pipe/001/alff.nii.gz"] [py "001"; py "002"]
    = Ok (Kept [py "001"] [py "/out/pipe/001/alff.nii.gz"]).
Proof. split; reflexivity. Qed.

(** C4 (as amended). For every entry the loop reaches, the driver raises
    the format failure exactly when the entry mismatches the
    repeated-measures flag: with the flag on, an entry without comma; with
    the flag off, an entry with a comma; otherwise the entry is processed.
    So the driver raises a format failure only if some entry mismatches,
    and raises it at a mismatching entry whenever the entries before it
    were filtered without failure. *)
Theorem format_mismatch_is_fatal :
  (forall rm ga_sub,
     format_mismatch rm ga_sub = true <->
     (rm = true /\ in_str [comma] ga_sub = false) \/
     (rm = false /\ in_str [comma] ga_sub = true)) /\
  (forall rm ga_sub,
     check_format rm ga_sub =
       if format_mismatch rm ga_sub
       then Err (if rm then RepeatedMeasuresFormat else NotRepeatedMeasuresFormat)
       else Ok tt) /\
  (forall rm s_paths group_sublist e,
     filter_subjects rm s_paths group_sublist = Err e ->
     e = RepeatedMeasuresFormat \/ e = NotRepeatedMeasuresFormat ->
     e = (if rm then RepeatedMeasuresFormat else NotRepeatedMeasuresFormat) /\
     exists ga_sub, ga_sub ∈ group_sublist /\ format_mismatch rm ga_sub = true) /\
  (forall rm s_paths before ga_sub after k,
     filter_subjects rm s_paths before = Ok k ->
     format_mismatch rm ga_sub = true ->
     filter_subjects rm s_paths (before ++ ga_sub :: after)
       = Err (if rm then RepeatedMeasuresFormat else NotRepeatedMeasuresFormat)).
Proof.
  repeat split.
  - unfold format_mismatch. destruct rm, (in_str [comma] ga_sub); simpl; intuition.
  - unfold format_mismatch.
    intros [[-> ->] | [-> ->]]; reflexivity.
  - apply check_format_spec.
  - apply subject_loop_err in H as [[-> _] | ->]; [done|].
    destruct H0; discriminate.
  - apply subject_loop_err in H as [[_ Hex] | ->]; [done|].
    destruct H0; discriminate.
  - intros rm s_paths before ga_sub after k Hk Hmis.
    unfold filter_subjects in *.
    by rewrite subject_loop_app, Hk, subject_loop_cons, Hmis.
Qed.

Lemma format_mismatch_is_fatal_witness :
  filter_subjects false [py "/out/pipe/001/alff.nii.gz"]
    ([py "001"] ++ py "002,scan_1" :: [py "003"])
    = Err NotRepeatedMeasuresFormat.
Proof.
  destruct format_mismatch_is_fatal as (_ & _ & _ & Hreached).
  apply (Hreached false [py "/out/pipe/001/alff.nii.gz"] [py "001"]
           (py "002,scan_1") [py "003"]
           (Kept [py "001"] [py "/out/pipe/001/alff.nii.gz"])); reflexivity.
Defined.

(** A subject list whose format mismatches the flag (repeated measures
    are off and the second entry holds a comma) on which the driver does
    not raise the format failure: the first entry matches no path and the
    loop stops there with the no-derivatives failure. *)
Lemma mismatching_entry_not_reached :
  format_mismatch false (py "002,scan_1") = true /\
  filter_subjects false [py "/out/pipe/003/alff.nii.gz"]
    [py "001"; py "002,scan_1"]
    = Err NoDerivatives /\
  NoDerivatives <> NotRepeatedMeasuresFormat.
Proof. repeat split; [reflexivity .. | discriminate]. Qed.

(** ** The motion-statistics parameter file *)

(** C6 (as amended). Motion-parameter resolution fails with the missing
    path exactly when motion statistics were required and the parameter
    file is absent. When the parameter file exists, whether motion
    statistics were required or not, its path is kept. *)
Theorem resolve_parameter_file_cases (path_exists : str -> bool)
    (runGenerateMotionStatistics : list Z) (parameter_file : str) :
  (forall p,
     resolve_parameter_file path_exists
       runGenerateMotionStatistics parameter_file
       = Err (ParameterFileMissing p) <->
     motion_statistics_required runGenerateMotionStatistics = true /\
     path_exists parameter_file = false /\ p = parameter_file) /\
  (path_exists parameter_file = true ->
     resolve_parameter_file path_exists
       runGenerateMotionStatistics parameter_file
       = Ok (Some parameter_file)) /\
  (motion_statistics_required runGenerateMotionStatistics = true <->
     1 ∈ runGenerateMotionStatistics).
Proof.
  unfold resolve_parameter_file.
  split; [|split].
  - intros p.
    destruct (motion_statistics_required runGenerateMotionStatistics),
      (path_exists parameter_file); simpl.
    + split; [done | by intros (_ & ? & _)].
    + split; [by intros [= ->] | by intros (_ & _ & ->)].
    + split; [done | by intros (? & _)].
    + split; [done | by intros (? & _)].
  - intros ->.
    by destruct (motion_statistics_required runGenerateMotionStatistics).
  - unfold motion_statistics_required.
    rewrite existsb_exists. split.
    + intros (x & Hx & Heq). apply Z.eqb_eq in Heq as <-.
      by apply list_elem_of_In.
    + intros Hin. exists 1. split; [by apply list_elem_of_In | done].
Qed.

Lemma resolve_parameter_file_cases_witness :
  resolve_parameter_file (fun _ => true) [1]
    (py "/out/pipe/rest_threshold_0.2_all_params.csv")
    = Ok (Some (py "/out/pipe/rest_threshold_0.2_all_params.csv")).
Proof.
  destruct (resolve_parameter_file_cases (fun _ => true) [1]
              (py "/out/pipe/rest_threshold_0.2_all_params.csv"))
    as (_ & Hkept & _).
  apply Hkept. reflexivity.
Defined.

(** Motion statistics were not required, yet the parameter file does not
    resolve to None, whatever the design formula: the file exists, and its
    path is kept. *)
Lemma existing_parameter_file_is_kept :
  motion_statistics_required [0] = false /\
  resolve_parameter_file (fun _ => true) [0]
    (py "/out/pipe/rest_threshold_0.2_all_params.csv")
    = Ok (Some (py "/out/pipe/rest_threshold_0.2_all_params.csv")) /\
  Ok (Some (py "/out/pipe/rest_threshold_0.2_all_params.csv"))
    <> (Ok None : result (option str)).
Proof. repeat split; [reflexivity .. | discriminate]. Qed.

End GroupAnalysisProps.

(** ** Output path rewriting *)

Module PathRewriteProps.
Import GroupAnalysis PathRewrite.

Local Open Scope nat_scope.

(** *** Lines and last slashes *)

(** A property of strings holds of every string once it holds of a single
    line and is kept when a line is put in front. *)
Lemma str_lines_ind (P : str -> Prop) :
  (forall l, newline ∉ l -> P l) ->
  (forall l s, newline ∉ l -> P s -> P (l ++ newline :: s)) ->
  forall s, P s.
Proof.
  intros Hline Hstep s.
  rewrite <- (GroupAnalysisProps.join_lines_of s).
  pose proof (GroupAnalysisProps.lines_of_no_newline s) as Hnl.
  induction Hnl as [|l ls Hl Hls IH].
  - apply Hline, not_elem_of_nil.
  - destruct ls as [|l' ls'].
    + by apply Hline.
    + change (P (l ++ newline :: join_lines (l' :: ls'))). by apply Hstep.
Qed.

Lemma slash_not_newline : slash <> newline.
Proof. discriminate. Qed.

(** A string without a slash, or its text before and after the last one. *)
Lemma last_slash_split (l : str) :
  slash ∉ l \/ exists w t, l = w ++ slash :: t /\ slash ∉ t.
Proof.
  induction l as [|c l [IH | (w & t & -> & Ht)]].
  - left. apply not_elem_of_nil.
  - destruct (decide (c = slash)) as [-> | Hc].
    + right. by exists [], l.
    + left. by apply not_elem_of_cons.
  - right. by exists (c :: w), t.
Qed.

Lemma last_slash_unique (w w' t t' : str) :
  w ++ slash :: t = w' ++ slash :: t' -> slash ∉ t -> slash ∉ t' ->
  w = w' /\ t = t'.
Proof.
  revert w'. induction w as [|c w IH]; intros [|c' w'] Heq Ht Ht'; simpl in *.
  - by injection Heq.
  - injection Heq as <- ->. exfalso. apply Ht.
    apply elem_of_app. right. apply elem_of_cons. by left.
  - injection Heq as -> <-. exfalso. apply Ht'.
    apply elem_of_app. right. apply elem_of_cons. by left.
  - injection Heq as -> Heq. destruct (IH w' Heq Ht Ht') as [-> ->]. done.
Qed.

(** When text without a slash is put after [u], the last slash is one of
    [u]. *)
Lemma last_slash_app (u t w' t' : str) :
  u ++ t = w' ++ slash :: t' -> slash ∉ t ->
  exists t'', u = w' ++ slash :: t'' /\ t' = t'' ++ t.
Proof.
  revert w'. induction u as [|c u IH]; intros w' Heq Ht; simpl in *.
  - exfalso. apply Ht. rewrite Heq. apply elem_of_app. right.
    apply elem_of_cons. by left.
  - destruct w' as [|c' w']; simpl in *.
    + injection Heq as -> <-. by exists u.
    + injection Heq as -> Heq. destruct (IH w' Heq Ht) as (t'' & -> & ->).
      by exists t''.
Qed.

Lemma last_slash_none (t : str) : slash ∉ t -> last_slash t = None.
Proof.
  induction t as [|c t IH]; [done|]. intros Ht.
  apply not_elem_of_cons in Ht as [Hc Ht]. simpl. rewrite (IH Ht).
  destruct (is_nl c); [done|].
  assert (ascii_eqb c slash = false) as -> by (apply ascii_eqb_neq; congruence).
  done.
Qed.

Lemma last_slash_some (w t : str) :
  newline ∉ w -> slash ∉ t ->
  last_slash (w ++ slash :: t) = Some (S (length w)).
Proof.
  intros Hw Ht. induction w as [|c w IH]; simpl.
  - by rewrite (last_slash_none t Ht).
  - apply not_elem_of_cons in Hw as [Hc Hw]. rewrite (IH Hw).
    assert (is_nl c = false) as -> by (apply is_nl_false; congruence). done.
Qed.

(** The match of [(.)*[/]] ends at the last slash of the line. *)
Lemma last_slash_inv (l : str) (n : nat) :
  newline ∉ l -> last_slash l = Some n ->
  exists w t, l = w ++ slash :: t /\ (slash ∉ t) /\ n = S (length w).
Proof.
  intros Hl Hn. destruct (last_slash_split l) as [Hno | (w & t & -> & Ht)].
  - by rewrite (last_slash_none l Hno) in Hn.
  - exists w, t. split; [done|]. split; [done|].
    assert (newline ∉ w) as Hw by (intros Hin; apply Hl, elem_of_app; by left).
    rewrite (last_slash_some w t Hw Ht) in Hn. congruence.
Qed.

Lemma last_slash_le (s : str) (n : nat) :
  last_slash s = Some n -> n <= length s.
Proof.
  revert n. induction s as [|c s IH]; intros n; simpl; [done|].
  destruct (is_nl c); [done|]. destruct (last_slash s) as [k|].
  - intros [= <-]. specialize (IH k eq_refl). lia.
  - destruct (ascii_eqb c slash); [|done]. intros [= <-]. lia.
Qed.

(** It does not look past the end of the line. *)
Lemma last_slash_line (l rest : str) :
  last_slash (l ++ newline :: rest) = last_slash l.
Proof.
  induction l as [|c l IH]; simpl; [done|]. by rewrite IH.
Qed.

(** *** The matcher on the patterns of the list *)

Lemma match_at_tail (before s : str) :
  match_at [StarDot; OneOf [slash]] before s = last_slash s.
Proof.
  revert before. induction s as [|c s IH]; intros before; [done|].
  simpl in *. rewrite IH. unfold dot. destruct (is_nl c) eqn:Hc; simpl.
  - apply is_nl_true in Hc as ->. done.
  - destruct (last_slash s); [done|].
    rewrite orb_false_r. by destruct (ascii_eqb c slash).
Qed.

Lemma match_at_rule (sh : shape) (kw before s : str) :
  match_at (rule sh kw).1 before s =
  match sh with
  | Behind => if startswith (rev kw) before then last_slash s else None
  | Strip =>
      if startswith kw s
      then n ← last_slash (drop (length kw) s); Some (length kw + n)
      else None
  end.
Proof.
  destruct sh.
  - change (match_at (rule Behind kw).1 before s)
      with (if startswith (rev kw) before
            then match_at [StarDot; OneOf [slash]] before s else None).
    by rewrite match_at_tail.
  - change (match_at (rule Strip kw).1 before s)
      with (if startswith kw s
            then n ← match_at [StarDot; OneOf [slash]] (rev kw ++ before)
                       (drop (length kw) s);
                 Some (length kw + n)
            else None).
    by rewrite match_at_tail.
Qed.

Lemma startswith_line (kw l rest : str) :
  newline ∉ kw -> startswith kw (l ++ newline :: rest) = startswith kw l.
Proof.
  revert l. induction kw as [|x kw IH]; intros l Hkw; [done|].
  apply not_elem_of_cons in Hkw as [Hx Hkw]. destruct l as [|y l]; simpl.
  - assert (ascii_eqb x newline = false) as ->
      by (apply ascii_eqb_neq; congruence). done.
  - by rewrite IH.
Qed.

Lemma startswith_length (kw s : str) :
  startswith kw s = true -> length kw <= length s.
Proof.
  intros [v ->]%startswith_spec. rewrite length_app. lia.
Qed.

(** A match does not look past the end of the line, *)
Lemma match_at_line (sh : shape) (kw before l rest : str) :
  newline ∉ kw ->
  match_at (rule sh kw).1 before (l ++ newline :: rest) =
  match_at (rule sh kw).1 before l.
Proof.
  intros Hkw. rewrite !match_at_rule. destruct sh.
  - by rewrite last_slash_line.
  - rewrite startswith_line by done.
    destruct (startswith kw l) eqn:Hs; [|done].
    apply startswith_spec in Hs as [v ->].
    rewrite <- app_assoc, !drop_app_length. by rewrite last_slash_line.
Qed.

(** nor before its start, *)
Lemma match_at_context (sh : shape) (kw x before s : str) :
  newline ∉ kw ->
  match_at (rule sh kw).1 (x ++ newline :: before) s =
  match_at (rule sh kw).1 x s.
Proof.
  intros Hkw. rewrite !match_at_rule. destruct sh; [|done].
  rewrite startswith_line; [done|].
  intros Hin. apply Hkw. by apply list_elem_of_In, in_rev, list_elem_of_In.
Qed.

(** and is not longer than what is left of the subject. *)
Lemma match_at_le (sh : shape) (kw before s : str) (n : nat) :
  match_at (rule sh kw).1 before s = Some n -> n <= length s.
Proof.
  rewrite match_at_rule. destruct sh.
  - destruct (startswith (rev kw) before); [|done]. apply last_slash_le.
  - destruct (startswith kw s) eqn:Hs; [|done].
    apply startswith_spec in Hs as [v ->]. rewrite drop_app_length.
    destruct (last_slash v) as [k|] eqn:Hk; [|done]. simpl.
    intros [= <-]. apply last_slash_le in Hk. rewrite length_app. lia.
Qed.

(** No pattern of the list matches in text without a slash. *)
Lemma match_at_no_slash (sh : shape) (kw before s : str) :
  slash ∉ s -> match_at (rule sh kw).1 before s = None.
Proof.
  intros Hs. rewrite match_at_rule. destruct sh.
  - rewrite last_slash_none by done. by destruct (startswith _ _).
  - destruct (startswith kw s) eqn:Hk; [|done].
    apply startswith_spec in Hk as [v ->]. rewrite drop_app_length.
    rewrite last_slash_none; [done|].
    intros Hin. apply Hs. rewrite elem_of_app. by right.
Qed.

(** *** The scan of [re.sub] *)

Section Scan.
Variable p : regex.
Variable repl : str.

(** The characters of a match are passed over. *)
Lemma sub_scan_skip (m z before : str) :
  sub_scan p repl before (length m) (m ++ z) =
  sub_scan p repl (rev m ++ before) 0 z.
Proof.
  revert before. induction m as [|c m IH]; intros before; simpl.
  - by destruct z.
  - by rewrite IH, <- app_assoc.
Qed.

(** Where the pattern matches nowhere, the text is copied. *)
Lemma sub_scan_copy (before l : str) :
  (forall x y n, l = x ++ y -> match_at p (rev x ++ before) y <> Some (S n)) ->
  sub_scan p repl before 0 l = l.
Proof.
  revert before. induction l as [|c l IH]; intros before Hno; [done|].
  simpl. rewrite IH.
  - pose proof (Hno [] (c :: l)) as H0. simpl in H0.
    destruct (match_at p before (c :: l)) as [[|n]|]; try done.
    by destruct (H0 n).
  - intros x y n ->. specialize (Hno (c :: x) y n eq_refl).
    simpl in Hno. by rewrite <- app_assoc in Hno.
Qed.

(** The text before the first match is copied, the match is replaced, and
    the scan resumes after it. *)
Lemma sub_scan_first (before x m z : str) :
  (forall x1 y1 n, x = x1 ++ y1 -> y1 <> [] ->
     match_at p (rev x1 ++ before) (y1 ++ m ++ z) <> Some (S n)) ->
  match_at p (rev x ++ before) (m ++ z) = Some (length m) ->
  m <> [] ->
  sub_scan p repl before 0 (x ++ m ++ z) =
  x ++ repl ++ sub_scan p repl (rev m ++ rev x ++ before) 0 z.
Proof.
  intros Hno Hm Hne. revert before Hno Hm.
  induction x as [|c x IH]; intros before Hno Hm.
  - destruct m as [|c m]; [done|]. simpl in *. rewrite Hm.
    by rewrite sub_scan_skip, <- app_assoc.
  - simpl. rewrite IH.
    + pose proof (Hno [] (c :: x)) as H0. simpl in H0.
      destruct (match_at p before (c :: x ++ m ++ z)) as [[|n]|];
        try by rewrite <- !app_assoc.
      by destruct (H0 n).
    + intros x1 y1 n -> Hy1. specialize (Hno (c :: x1) y1 n eq_refl Hy1).
      simpl in Hno. by rewrite <- app_assoc in Hno.
    + simpl in Hm. by rewrite <- app_assoc in Hm.
Qed.

End Scan.

(** A substitution of the list rewrites each line on its own. *)
Lemma sub_scan_line (sh : shape) (kw before l s : str) (skip : nat) :
  newline ∉ kw -> newline ∉ l -> skip <= length l ->
  sub_scan (rule sh kw).1 (rule sh kw).2 before skip (l ++ newline :: s) =
  sub_scan (rule sh kw).1 (rule sh kw).2 before skip l
    ++ newline :: re_sub (rule sh kw).1 (rule sh kw).2 s.
Proof.
  intros Hkw. set (p := (rule sh kw).1). set (r := (rule sh kw).2).
  assert (forall t x b k, sub_scan p r (x ++ newline :: b) k t
                          = sub_scan p r x k t) as Hctx.
  { intros t. induction t as [|c t IH]; intros x b k; [done|].
    pose proof (IH (c :: x) b) as IH'. simpl in *. destruct k as [|k].
    - unfold p. rewrite match_at_context by done. fold p.
      destruct (match_at p x (c :: t)) as [[|n]|]; by rewrite IH'.
    - apply IH'. }
  revert before skip. induction l as [|c l IH]; intros before skip Hl Hskip.
  - simpl in Hskip. assert (skip = 0) as -> by lia. simpl.
    change (newline :: s) with ([] ++ newline :: s).
    unfold p. rewrite match_at_line by done. fold p.
    pose proof (Hctx s [] before 0) as Hs. simpl in Hs.
    destruct (match_at p before []) as [[|n]|] eqn:Hm.
    + by rewrite Hs.
    + apply match_at_le in Hm. simpl in Hm. lia.
    + by rewrite Hs.
  - apply not_elem_of_cons in Hl as [Hc Hl]. simpl in Hskip. simpl.
    destruct skip as [|skip].
    + change (c :: l ++ newline :: s) with ((c :: l) ++ newline :: s).
      unfold p. rewrite match_at_line by done. fold p.
      destruct (match_at p before (c :: l)) as [[|n]|] eqn:Hm.
      * by rewrite IH by (done || lia).
      * apply match_at_le in Hm. simpl in Hm.
        rewrite IH by (done || lia). by rewrite <- app_assoc.
      * by rewrite IH by (done || lia).
    + by rewrite IH by (done || lia).
Qed.

Lemma re_sub_lines (sh : shape) (kw l s : str) :
  newline ∉ kw -> newline ∉ l ->
  re_sub (rule sh kw).1 (rule sh kw).2 (l ++ newline :: s) =
  re_sub (rule sh kw).1 (rule sh kw).2 l
    ++ newline :: re_sub (rule sh kw).1 (rule sh kw).2 s.
Proof.
  intros Hkw Hl. apply sub_scan_line; [done | done | lia].
Qed.

(** *** One substitution on one line *)

(** A keyword that occurs in [w] has a leftmost occurrence. *)
Lemma leftmost_occurrence (kw w : str) :
  ~ occurs kw w \/
  exists u v, w = u ++ kw ++ v /\
    forall u1 v1, w = u1 ++ kw ++ v1 -> length u <= length u1.
Proof.
  induction w as [|c w IH].
  - destruct kw as [|k kw].
    + right. exists [], []. split; [done|]. intros; simpl; lia.
    + left. intros ([|? ?] & v & Huv); discriminate Huv.
  - destruct (startswith kw (c :: w)) eqn:Hs.
    + apply startswith_spec in Hs as [v Hv]. right. exists [], v.
      split; [done|]. intros; simpl; lia.
    + assert (forall u1 v1, c :: w = u1 ++ kw ++ v1 ->
                exists u2, u1 = c :: u2 /\ w = u2 ++ kw ++ v1) as Hcons.
      { intros [|c1 u1] v1 Huv.
        - assert (startswith kw (c :: w) = true) as Ht
            by (apply startswith_spec; by exists v1).
          congruence.
        - injection Huv as <- ->. by exists u1. }
      destruct IH as [Hno | (u & v & -> & Hleft)].
      * left. intros (u1 & v1 & Huv).
        apply Hcons in Huv as (u2 & -> & Hw). apply Hno. by exists u2, v1.
      * right. exists (c :: u), v. split; [done|]. intros u1 v1 Huv.
        apply Hcons in Huv as (u2 & -> & Hw). apply Hleft in Hw. simpl. lia.
Qed.

Lemma startswith_rev (kw x : str) :
  startswith (rev kw) (rev x) = true <-> exists u, x = u ++ kw.
Proof.
  rewrite startswith_spec. split.
  - intros [v Hv]. exists (rev v).
    by rewrite <- (rev_involutive x), Hv, rev_app_distr, rev_involutive.
  - intros [u ->]. exists (rev u). by rewrite rev_app_distr.
Qed.

(** Where a pattern of the list matches, its keyword stands before the
    last slash of the line. *)
Lemma match_at_occurrence (sh : shape) (kw x y : str) (n : nat) :
  newline ∉ y ->
  match_at (rule sh kw).1 (rev x) y = Some n ->
  exists u v t,
    x ++ y = u ++ kw ++ v ++ slash :: t /\ (slash ∉ t) /\
    match sh with
    | Behind => x = u ++ kw
    | Strip => x = u
    end.
Proof.
  intros Hy. rewrite match_at_rule. destruct sh.
  - destruct (startswith (rev kw) (rev x)) eqn:Hs; [|done].
    apply startswith_rev in Hs as [u ->]. intros Hn.
    apply last_slash_inv in Hn as (v & t & -> & Ht & _); [|done].
    exists u, v, t. by rewrite <- app_assoc.
  - destruct (startswith kw y) eqn:Hs; [|done].
    apply startswith_spec in Hs as [y' ->]. rewrite drop_app_length.
    destruct (last_slash y') as [k|] eqn:Hk; [|done]. intros _.
    apply last_slash_inv in Hk as (v & t & -> & Ht & _).
    + by exists x, v, t.
    + intros Hin. apply Hy, elem_of_app. by right.
Qed.

(** At the keyword, the match runs to the last slash of the line. *)
Lemma match_at_keyword (sh : shape) (kw u v t : str) :
  newline ∉ v -> slash ∉ t ->
  match sh with
  | Behind =>
      match_at (rule sh kw).1 (rev (u ++ kw)) (v ++ slash :: t)
      = Some (S (length v))
  | Strip =>
      match_at (rule sh kw).1 (rev u) (kw ++ v ++ slash :: t)
      = Some (length kw + S (length v))
  end.
Proof.
  intros Hv Ht. destruct sh; rewrite match_at_rule.
  - assert (startswith (rev kw) (rev (u ++ kw)) = true) as ->
      by (apply startswith_rev; by exists u).
    by apply last_slash_some.
  - assert (startswith kw (kw ++ v ++ slash :: t) = true) as ->
      by (apply startswith_spec; by eexists).
    rewrite drop_app_length, last_slash_some by done. done.
Qed.

(** A substitution of the list leaves a line as it is, the keyword not
    occurring before the last slash; or it cuts the line from the leftmost
    occurrence of the keyword to the last slash. *)
Lemma re_sub_line (sh : shape) (kw l : str) :
  newline ∉ l ->
  (re_sub (rule sh kw).1 (rule sh kw).2 l = l /\
   forall w t, l = w ++ slash :: t -> slash ∉ t -> ~ occurs kw w)
  \/
  exists u v t,
    l = u ++ kw ++ v ++ slash :: t /\ (slash ∉ t) /\
    (forall u1 v1, u ++ kw ++ v = u1 ++ kw ++ v1 -> length u <= length u1) /\
    re_sub (rule sh kw).1 (rule sh kw).2 l =
    match sh with
    | Behind => u ++ kw ++ slash :: t
    | Strip => u ++ t
    end.
Proof.
  intros Hl. destruct (last_slash_split l) as [Hno | (w & t & -> & Ht)].
  { left. split.
    - apply sub_scan_copy. intros x y n ->.
      rewrite match_at_no_slash; [done|].
      intros Hin. apply Hno, elem_of_app. by right.
    - intros w t -> _. exfalso. apply Hno, elem_of_app. right.
      apply elem_of_cons. by left. }
  assert (forall x y n, w ++ slash :: t = x ++ y ->
            match_at (rule sh kw).1 (rev x ++ []) y = Some n ->
            exists u v, w = u ++ kw ++ v /\
              match sh with
              | Behind => x = u ++ kw
              | Strip => x = u
              end) as Hocc.
  { intros x y n Hxy Hm. rewrite app_nil_r in Hm.
    apply match_at_occurrence in Hm as (u & v & t' & Heq & Ht' & Hx).
    - exists u, v. split; [|done]. rewrite <- Hxy in Heq.
      replace (u ++ kw ++ v ++ slash :: t')
        with ((u ++ kw ++ v) ++ slash :: t') in Heq
        by (by rewrite <- !app_assoc).
      by destruct (last_slash_unique _ _ _ _ Heq Ht Ht').
    - intros Hin. apply Hl. rewrite Hxy. apply elem_of_app. by right. }
  destruct (leftmost_occurrence kw w) as [Hnone | (u & v & -> & Hleft)].
  { left. split.
    - apply sub_scan_copy. intros x y n Hxy Hm.
      destruct (Hocc x y (S n) Hxy Hm) as (u & v & -> & _).
      apply Hnone. by exists u, v.
    - intros w' t' Heq Ht'.
      by destruct (last_slash_unique _ _ _ _ Heq Ht Ht') as [<- _]. }
  right. exists u, v, t. split; [by rewrite <- !app_assoc|].
  split; [done|]. split; [done|].
  assert (newline ∉ v) as Hv.
  { intros Hin. apply Hl. rewrite !elem_of_app. left. right. by right. }
  assert (sub_scan (rule sh kw).1 (rule sh kw).2
            (rev (match sh with
                  | Behind => v ++ [slash]
                  | Strip => kw ++ v ++ [slash]
                  end)
             ++ rev (match sh with Behind => u ++ kw | Strip => u end) ++ [])
            0 t = t) as Htail.
  { apply sub_scan_copy. intros x y n ->. rewrite match_at_no_slash; [done|].
    intros Hin. apply Ht, elem_of_app. by right. }
  pose proof (match_at_keyword sh kw u v t Hv Ht) as Hhere.
  unfold re_sub. destruct sh.
  - replace ((u ++ kw ++ v) ++ slash :: t)
      with ((u ++ kw) ++ (v ++ [slash]) ++ t)
      by (by rewrite <- !app_assoc).
    rewrite sub_scan_first.
    + rewrite Htail. by rewrite <- app_assoc.
    + intros x1 y1 n Hx Hy1 Hm.
      destruct (Hocc x1 (y1 ++ (v ++ [slash]) ++ t) (S n)) as (u1 & v1 & Hw & ->).
      * rewrite (app_assoc x1 y1), <- Hx. by rewrite <- !app_assoc.
      * done.
      * apply Hleft in Hw. apply (f_equal length) in Hx.
        rewrite !length_app in Hx. destruct y1; [done|]. simpl in Hx. lia.
    + rewrite app_nil_r, <- app_assoc. simpl. rewrite length_app. simpl.
      rewrite Nat.add_1_r. done.
    + by destruct v.
  - replace ((u ++ kw ++ v) ++ slash :: t)
      with (u ++ (kw ++ v ++ [slash]) ++ t)
      by (by rewrite <- !app_assoc).
    rewrite sub_scan_first.
    + by rewrite Htail.
    + intros x1 y1 n Hx Hy1 Hm.
      destruct (Hocc x1 (y1 ++ (kw ++ v ++ [slash]) ++ t) (S n)) as (u1 & v1 & Hw & ->).
      * rewrite (app_assoc x1 y1), <- Hx. by rewrite <- !app_assoc.
      * done.
      * apply Hleft in Hw. apply (f_equal length) in Hx.
        rewrite !length_app in Hx. destruct y1; [done|]. simpl in Hx. lia.
    + rewrite app_nil_r, <- !app_assoc. simpl. rewrite !length_app. simpl.
      rewrite Nat.add_1_r. done.
    + destruct kw, v; done.
Qed.

(** *** The list of substitutions on one line *)

(** The substitutions of [rules], as the data sink applies them. *)
Lemma regexp_substitutions_rules :
  regexp_substitutions = map (fun r => rule r.1 r.2) rules.
Proof. reflexivity. Qed.

Lemma rules_no_newline :
  Forall (fun r : shape * str => newline ∉ r.2) rules.
Proof.
  unfold rules.
  repeat (apply Forall_cons; split;
          [intros Hin; simpl in Hin;
           repeat (apply elem_of_cons in Hin as [Hin | Hin];
                   [discriminate Hin|]);
           by apply elem_of_nil in Hin|]).
  apply Forall_nil. done.
Qed.

Lemma below_refl (l : str) : below l l.
Proof. intros w t -> Ht. by exists [], t. Qed.

Lemma below_trans (l1 l2 l3 : str) : below l1 l2 -> below l2 l3 -> below l1 l3.
Proof.
  intros H12 H23 w t Hl Ht.
  destruct (H12 w t Hl Ht) as (z & t2 & Hl2 & Ht2).
  rewrite app_assoc in Hl2.
  destruct (H23 _ t2 Hl2 Ht2) as (z' & t3 & -> & Ht3).
  exists (z ++ z'), t3. by rewrite <- !app_assoc.
Qed.

(** A rule with nothing left to rewrite in a line has nothing to rewrite
    in a line whose text before the last slash is shorter. *)
Lemma settled_below (sh : shape) (kw l l' : str) :
  settled sh kw l -> below l' l -> settled sh kw l'.
Proof.
  intros Hs Hb w t Hl Ht. destruct (Hb w t Hl Ht) as (z & t2 & Hl2 & Ht2).
  rewrite app_assoc in Hl2. specialize (Hs _ t2 Hl2 Ht2). destruct sh.
  - intros u v ->. specialize (Hs u (v ++ z)).
    rewrite <- !app_assoc in Hs. specialize (Hs eq_refl).
    by apply app_eq_nil in Hs as [-> _].
  - intros (u & v & ->). apply Hs. exists u, (v ++ z).
    by rewrite <- !app_assoc.
Qed.

Section OneRule.
Variable sh : shape.
Variable kw : str.
Let f (l : str) : str := re_sub (rule sh kw).1 (rule sh kw).2 l.

Lemma rule_no_newline (l : str) : newline ∉ l -> newline ∉ f l.
Proof.
  intros Hl. destruct (re_sub_line sh kw l Hl)
    as [[Heq _] | (u & v & t & -> & _ & _ & Heq)]; unfold f; rewrite Heq.
  - done.
  - intros Hin. apply Hl. destruct sh.
    + rewrite !elem_of_app, elem_of_cons in Hin.
      rewrite !elem_of_app, elem_of_cons. tauto.
    + rewrite !elem_of_app in Hin.
      rewrite !elem_of_app, elem_of_cons. tauto.
Qed.

(** The text before the last slash only gets shorter. *)
Lemma rule_below (l : str) : newline ∉ l -> below (f l) l.
Proof.
  intros Hl. destruct (re_sub_line sh kw l Hl)
    as [[Heq _] | (u & v & t & -> & Ht & _ & Heq)]; unfold f; rewrite Heq.
  - apply below_refl.
  - intros w' t' Hl' Ht'. destruct sh.
    + replace (u ++ kw ++ slash :: t) with ((u ++ kw) ++ slash :: t) in Hl'
        by (by rewrite <- app_assoc).
      destruct (last_slash_unique _ _ _ _ Hl' Ht Ht') as [<- <-].
      exists v, t. by rewrite <- !app_assoc.
    + destruct (last_slash_app _ _ _ _ Hl' Ht) as (t'' & -> & ->).
      exists (slash :: t'' ++ kw ++ v), t. split; [|done].
      rewrite <- !app_assoc. simpl. by rewrite <- !app_assoc.
Qed.

(** A rule has nothing left to rewrite in its own result. *)
Lemma rule_settles (l : str) : newline ∉ l -> settled sh kw (f l).
Proof.
  intros Hl. destruct (re_sub_line sh kw l Hl)
    as [[Heq Hno] | (u & v & t & -> & Ht & Hleft & Heq)]; unfold f; rewrite Heq.
  - intros w t Hw Ht. specialize (Hno w t Hw Ht). destruct sh; [|done].
    intros u v ->. exfalso. apply Hno. by exists u, v.
  - intros w' t' Hl' Ht'. destruct sh.
    + replace (u ++ kw ++ slash :: t) with ((u ++ kw) ++ slash :: t) in Hl'
        by (by rewrite <- app_assoc).
      destruct (last_slash_unique _ _ _ _ Hl' Ht Ht') as [<- <-].
      intros u1 v1 Huv.
      assert (u ++ kw ++ v = u1 ++ kw ++ v1 ++ v) as Hw
        by (rewrite app_assoc, Huv; by rewrite <- !app_assoc).
      apply Hleft in Hw.
      apply (f_equal length) in Huv. rewrite !length_app in Huv.
      destruct v1; [done|]. simpl in Huv. lia.
    + destruct (last_slash_app _ _ _ _ Hl' Ht) as (t'' & -> & ->).
      intros (u1 & v1 & ->).
      assert (((u1 ++ kw ++ v1) ++ slash :: t'') ++ kw ++ v
              = u1 ++ kw ++ v1 ++ slash :: t'' ++ kw ++ v) as Hw
        by (by rewrite <- !app_assoc).
      apply Hleft in Hw. rewrite !length_app in Hw. simpl in Hw. lia.
Qed.

(** With nothing left to rewrite, the rule leaves the line as it is. *)
Lemma rule_settled (l : str) : newline ∉ l -> settled sh kw l -> f l = l.
Proof.
  intros Hl Hs. destruct (re_sub_line sh kw l Hl)
    as [[Heq _] | (u & v & t & -> & Ht & _ & Heq)]; unfold f; rewrite Heq.
  - done.
  - specialize (Hs (u ++ kw ++ v) t). rewrite <- !app_assoc in Hs.
    specialize (Hs eq_refl Ht). destruct sh.
    + by rewrite (Hs u v eq_refl).
    + exfalso. apply Hs. by exists u, v.
Qed.

End OneRule.

Lemma rewrite_with_cons (r : shape * str) (rs : list (shape * str)) (s : str) :
  rewrite_with (r :: rs) s
  = rewrite_with rs (re_sub (rule r.1 r.2).1 (rule r.1 r.2).2 s).
Proof.
  unfold rewrite_with, substitute. simpl. by destruct (rule r.1 r.2).
Qed.

Lemma rewrite_with_no_newline (rs : list (shape * str)) (l : str) :
  newline ∉ l -> newline ∉ rewrite_with rs l.
Proof.
  revert l. induction rs as [|r rs IH]; intros l Hl; [done|].
  rewrite rewrite_with_cons. by apply IH, rule_no_newline.
Qed.

Lemma rewrite_with_below (rs : list (shape * str)) (l : str) :
  newline ∉ l -> below (rewrite_with rs l) l.
Proof.
  revert l. induction rs as [|r rs IH]; intros l Hl; [apply below_refl|].
  rewrite rewrite_with_cons. eapply below_trans.
  - by apply IH, rule_no_newline.
  - by apply rule_below.
Qed.

(** After the list has been applied, no rule of it has anything left to
    rewrite. *)
Lemma rewrite_with_settles (rs : list (shape * str)) (l : str) :
  newline ∉ l ->
  Forall (fun r => settled r.1 r.2 (rewrite_with rs l)) rs.
Proof.
  revert l. induction rs as [|r rs IH]; intros l Hl; [done|].
  rewrite rewrite_with_cons. apply Forall_cons. split.
  - eapply settled_below.
    + by apply rule_settles.
    + by apply rewrite_with_below, rule_no_newline.
  - by apply IH, rule_no_newline.
Qed.

Lemma rewrite_with_settled (rs : list (shape * str)) (l : str) :
  newline ∉ l -> Forall (fun r => settled r.1 r.2 l) rs ->
  rewrite_with rs l = l.
Proof.
  intros Hl Hs. induction Hs as [|r rs Hr Hrs IH]; [done|].
  rewrite rewrite_with_cons. by rewrite rule_settled.
Qed.

(** The list rewrites the lines of a text one by one. *)
Lemma rewrite_with_lines (rs : list (shape * str)) (l s : str) :
  Forall (fun r => newline ∉ r.2) rs -> newline ∉ l ->
  rewrite_with rs (l ++ newline :: s)
  = rewrite_with rs l ++ newline :: rewrite_with rs s.
Proof.
  intros Hrs. revert l s. induction Hrs as [|r rs Hr Hrs IH]; intros l s Hl.
  - done.
  - rewrite !rewrite_with_cons, re_sub_lines by done.
    by rewrite IH by by apply rule_no_newline.
Qed.

Lemma rewrite_with_idempotent (rs : list (shape * str)) (s : str) :
  Forall (fun r => newline ∉ r.2) rs ->
  rewrite_with rs (rewrite_with rs s) = rewrite_with rs s.
Proof.
  intros Hrs. induction s as [l Hl | l s Hl IH] using str_lines_ind.
  - apply rewrite_with_settled.
    + by apply rewrite_with_no_newline.
    + by apply rewrite_with_settles.
  - rewrite rewrite_with_lines by done.
    rewrite rewrite_with_lines by (done || by apply rewrite_with_no_newline).
    rewrite IH. f_equal. apply rewrite_with_settled.
    + by apply rewrite_with_no_newline.
    + by apply rewrite_with_settles.
Qed.

(** Applying the nine substitutions of lines 448-456 to a path that they
    have already rewritten changes nothing. *)
Theorem regexp_substitutions_idempotent (pathstr : str) :
  substitute regexp_substitutions (substitute regexp_substitutions pathstr)
  = substitute regexp_substitutions pathstr.
Proof.
  rewrite regexp_substitutions_rules.
  apply (rewrite_with_idempotent rules pathstr), rules_no_newline.
Qed.

(** A text without a slash is left as it is, whatever keywords it holds. *)
Theorem regexp_substitutions_no_slash (pathstr : str) :
  slash ∉ pathstr -> substitute regexp_substitutions pathstr = pathstr.
Proof.
  intros Hs. rewrite regexp_substitutions_rules.
  change (rewrite_with rules pathstr = pathstr).
  induction rules as [|r rs IH]; [done|].
  rewrite rewrite_with_cons. unfold re_sub. rewrite sub_scan_copy; [done|].
  intros x y n ->. rewrite match_at_no_slash; [done|].
  intros Hin. apply Hs, elem_of_app. by right.
Qed.

Lemma regexp_substitutions_no_slash_witness :
  substitute regexp_substitutions (py "rendered_cluster_overlay.png")
  = py "rendered_cluster_overlay.png".
Proof.
  apply regexp_substitutions_no_slash.
  intros Hin. apply list_elem_of_In in Hin. vm_compute in Hin.
  repeat (destruct Hin as [Hin | Hin]; [discriminate Hin|]). done.
Defined.

(** The paths of a text with one path per line are rewritten one by
    one. *)
Theorem regexp_substitutions_by_line (l s : str) :
  newline ∉ l ->
  substitute regexp_substitutions (l ++ newline :: s)
  = substitute regexp_substitutions l
      ++ newline :: substitute regexp_substitutions s.
Proof.
  intros Hl. rewrite regexp_substitutions_rules.
  apply (rewrite_with_lines rules); [apply rules_no_newline | done].
Qed.

Lemma regexp_substitutions_by_line_witness :
  substitute regexp_substitutions
    (py "a/rendered/x/y.png" ++ newline :: py "b/_cluster0/z.nii")
  = substitute regexp_substitutions (py "a/rendered/x/y.png")
      ++ newline :: substitute regexp_substitutions (py "b/_cluster0/z.nii").
Proof.
  apply regexp_substitutions_by_line.
  intros Hin. apply list_elem_of_In in Hin. vm_compute in Hin.
  repeat (destruct Hin as [Hin | Hin]; [discriminate Hin|]). done.
Defined.

Lemma rule_length (sh : shape) (kw l : str) :
  newline ∉ l ->
  length (re_sub (rule sh kw).1 (rule sh kw).2 l) <= length l.
Proof.
  intros Hl. destruct (re_sub_line sh kw l Hl)
    as [[Heq _] | (u & v & t & -> & _ & _ & Heq)]; rewrite Heq; [done|].
  destruct sh; rewrite !length_app; simpl; rewrite ?length_app; simpl; lia.
Qed.

Lemma rewrite_with_length (rs : list (shape * str)) (s : str) :
  Forall (fun r => newline ∉ r.2) rs ->
  length (rewrite_with rs s) <= length s.
Proof.
  intros Hrs.
  assert (forall l, newline ∉ l -> length (rewrite_with rs l) <= length l)
    as Hline.
  { clear Hrs. induction rs as [|r rs IH]; intros l Hl; [done|].
    rewrite rewrite_with_cons. etransitivity.
    - by apply IH, rule_no_newline.
    - by apply rule_length. }
  induction s as [l Hl | l s Hl IH] using str_lines_ind; [by apply Hline|].
  rewrite rewrite_with_lines by done. rewrite !length_app. simpl.
  specialize (Hline l Hl). lia.
Qed.

(** The substitutions only cut text out: no path gets longer. *)
Theorem regexp_substitutions_length (pathstr : str) :
  length (substitute regexp_substitutions pathstr) <= length pathstr.
Proof.
  rewrite regexp_substitutions_rules.
  apply (rewrite_with_length rules), rules_no_newline.
Qed.

Lemma rule_suffix (sh : shape) (kw l t : str) :
  newline ∉ l -> slash ∉ t -> t `suffix_of` l ->
  t `suffix_of` re_sub (rule sh kw).1 (rule sh kw).2 l.
Proof.
  intros Hl Ht [w Hw]. destruct (re_sub_line sh kw l Hl)
    as [[Heq _] | (u & v & t0 & Hl0 & Ht0 & _ & Heq)]; rewrite Heq.
  - by exists w.
  - rewrite Hw in Hl0.
    replace (u ++ kw ++ v ++ slash :: t0)
      with ((u ++ kw ++ v) ++ slash :: t0) in Hl0
      by (by rewrite <- !app_assoc).
    destruct (last_slash_app _ _ _ _ Hl0 Ht) as (t'' & _ & ->).
    destruct sh.
    + exists (u ++ kw ++ slash :: t''). by rewrite <- !app_assoc.
    + exists (u ++ t''). by rewrite <- !app_assoc.
Qed.

(** The file name is not cut: the text after the last slash of a path
    still ends the rewritten path. *)
Theorem regexp_substitutions_keep_file_name (w t : str) :
  newline ∉ w ++ slash :: t -> slash ∉ t ->
  t `suffix_of` substitute regexp_substitutions (w ++ slash :: t).
Proof.
  intros Hl Ht. rewrite regexp_substitutions_rules.
  change (t `suffix_of` rewrite_with rules (w ++ slash :: t)).
  assert (t `suffix_of` w ++ slash :: t) as Hsuf
    by (exists (w ++ [slash]); by rewrite <- app_assoc).
  revert Hl Hsuf. generalize (w ++ slash :: t) as l.
  induction rules as [|r rs IH]; intros l Hl Hsuf; [done|].
  rewrite rewrite_with_cons. apply IH.
  - by apply rule_no_newline.
  - by apply rule_suffix.
Qed.

Lemma regexp_substitutions_keep_file_name_witness :
  py "zstat1.nii.gz" `suffix_of`
  substitute regexp_substitutions
    (py "out/stats/unthreshold/_fisher_z/_cluster0" ++ slash :: py "zstat1.nii.gz").
Proof.
  apply regexp_substitutions_keep_file_name.
  - intros Hin. apply list_elem_of_In in Hin. vm_compute in Hin.
    repeat (destruct Hin as [Hin | Hin]; [discriminate Hin|]). done.
  - intros Hin. apply list_elem_of_In in Hin. vm_compute in Hin.
    repeat (destruct Hin as [Hin | Hin]; [discriminate Hin|]). done.
Defined.

(** What one look-behind substitution does to a path: everything between
    the first occurrence of the keyword and the last slash is cut out, so
    that the file lands directly in the keyword's directory. *)
Theorem lookbehind_substitution_flattens (kw u v t : str) :
  newline ∉ u ++ kw ++ v ++ slash :: t -> slash ∉ t ->
  (forall u1 v1, u ++ kw ++ v = u1 ++ kw ++ v1 -> length u <= length u1) ->
  re_sub [LookBehind kw; StarDot; OneOf [slash]] [slash]
    (u ++ kw ++ v ++ slash :: t)
  = u ++ kw ++ slash :: t.
Proof.
  intros Hl Ht Hleft.
  destruct (re_sub_line Behind kw _ Hl)
    as [[_ Hno] | (u' & v' & t' & Hl' & Ht' & Hleft' & Heq)].
  - exfalso. apply (Hno (u ++ kw ++ v) t); [by rewrite <- !app_assoc | done|].
    by exists u, v.
  - change (rule Behind kw).1 with [LookBehind kw; StarDot; OneOf [slash]] in Heq.
    change (rule Behind kw).2 with [slash] in Heq. rewrite Heq.
    replace (u ++ kw ++ v ++ slash :: t)
      with ((u ++ kw ++ v) ++ slash :: t) in Hl'
      by (by rewrite <- !app_assoc).
    replace (u' ++ kw ++ v' ++ slash :: t')
      with ((u' ++ kw ++ v') ++ slash :: t') in Hl'
      by (by rewrite <- !app_assoc).
    destruct (last_slash_unique _ _ _ _ Hl' Ht Ht') as [Hw <-].
    pose proof (Hleft _ _ Hw) as H1. symmetry in Hw.
    pose proof (Hleft' _ _ Hw) as H2.
    assert (length u = length u') as Hlen by lia.
    apply (f_equal (take (length u))) in Hw as Hu.
    rewrite take_app_length in Hu. rewrite Hlen, take_app_length in Hu.
    by rewrite Hu.
Qed.

Lemma lookbehind_substitution_flattens_witness :
  re_sub [LookBehind (py "rendered"); StarDot; OneOf [slash]] [slash]
    (py "out/" ++ py "rendered" ++ py "/_fisher_z/_overlay0" ++ slash :: py "zstat1.png")
  = py "out/" ++ py "rendered" ++ slash :: py "zstat1.png".
Proof.
  apply lookbehind_substitution_flattens.
  - intros Hin. apply list_elem_of_In in Hin. vm_compute in Hin.
    repeat (destruct Hin as [Hin | Hin]; [discriminate Hin|]). done.
  - intros Hin. apply list_elem_of_In in Hin. vm_compute in Hin.
    repeat (destruct Hin as [Hin | Hin]; [discriminate Hin|]). done.
  - intros u1 v1 Huv.
    destruct u1 as [|c1 [|c2 [|c3 [|c4 u1]]]]; simpl; try lia;
      vm_compute in Huv; discriminate Huv.
Defined.

(** C8. Applying the nine substitutions, in list order, to a path that
    they have already rewritten gives the same path as applying them
    once; and the rewritten path is determined by the path: the same path
    always gives the same rewritten path. *)
Theorem path_rewriting_idempotent_deterministic :
  length regexp_substitutions = 9 /\
  (forall pathstr,
     substitute regexp_substitutions (substitute regexp_substitutions pathstr)
     = substitute regexp_substitutions pathstr) /\
  (forall pathstr pathstr',
     pathstr = pathstr' ->
     substitute regexp_substitutions pathstr
     = substitute regexp_substitutions pathstr').
Proof.
  split; [reflexivity|]. split.
  - intros pathstr. rewrite regexp_substitutions_rules.
    apply (rewrite_with_idempotent rules pathstr), rules_no_newline.
  - by intros pathstr pathstr' ->.
Qed.

Lemma path_rewriting_idempotent_deterministic_witness :
  substitute regexp_substitutions
    (py "/out/rendered/_fisher_z/_overlay0/zstat1.png")
  = substitute regexp_substitutions
      (py "/out/rendered" ++ py "/_fisher_z/_overlay0/zstat1.png") /\
  substitute regexp_substitutions
    (py "/out/rendered/_fisher_z/_overlay0/zstat1.png")
  = py "/out/rendered/zstat1.png".
Proof.
  split; [|reflexivity].
  destruct path_rewriting_idempotent_deterministic as (_ & _ & Hdet).
  apply Hdet. reflexivity.
Defined.

End PathRewriteProps.

(** ** More on subject filtering *)

Module SubjectFilteringProps.
Import GroupAnalysis.

Local Open Scope nat_scope.

Lemma replicate_filter_aligned (P : str -> str -> Prop) (f : str -> bool)
    (e : str) (l : list str) :
  (forall p, p ∈ l -> f p = true -> P e p) ->
  Forall2 P (replicate (length (List.filter f l)) e) (List.filter f l).
Proof.
  induction l as [|p l IH]; intros HP; simpl; [constructor|].
  destruct (f p) eqn:Hp; simpl.
  - constructor.
    + apply HP; [by left | done].
    + apply IH. intros q Hq. apply HP. by right.
  - apply IH. intros q Hq. apply HP. by right.
Qed.

(** The paths kept for the merge are grouped by subject, in the order of
    the subject list, and within a subject in the order of the candidate
    paths. *)
Theorem derivative_paths_by_subject (rm : bool) (s_paths group_sublist : list str)
    (k : kept) :
  filter_subjects rm s_paths group_sublist = Ok k ->
  derivative_paths k =
    flat_map (fun ga_sub => List.filter (path_matches rm ga_sub) s_paths)
             group_sublist.
Proof.
  intros Hk. by apply GroupAnalysisProps.filter_subjects_ok in Hk as (_ & -> & _).
Qed.

Lemma derivative_paths_by_subject_witness :
  filter_subjects false
    [py "/out/002/alff.nii.gz"; py "/out/001/alff.nii.gz"]
    [py "001"; py "002"]
  = Ok (Kept [py "001"; py "002"]
             [py "/out/001/alff.nii.gz"; py "/out/002/alff.nii.gz"]) /\
  [py "/out/001/alff.nii.gz"; py "/out/002/alff.nii.gz"] =
    flat_map (fun ga_sub =>
                List.filter (path_matches false ga_sub)
                  [py "/out/002/alff.nii.gz"; py "/out/001/alff.nii.gz"])
             [py "001"; py "002"].
Proof.
  split; [reflexivity|].
  apply (derivative_paths_by_subject false
           [py "/out/002/alff.nii.gz"; py "/out/001/alff.nii.gz"]
           [py "001"; py "002"]
           (Kept [py "001"; py "002"]
                 [py "/out/001/alff.nii.gz"; py "/out/002/alff.nii.gz"])).
  reflexivity.
Defined.

(** The two lists stay in step: the i-th kept entry is the subject whose
    test the i-th kept path passed, and every kept path is one of the
    candidates. *)
Theorem kept_lists_aligned (rm : bool) (s_paths group_sublist : list str)
    (k : kept) :
  filter_subjects rm s_paths group_sublist = Ok k ->
  Forall2 (fun ga_sub path =>
             ga_sub ∈ group_sublist /\ path ∈ s_paths /\
             path_matches rm ga_sub path = true)
          (exist_paths k) (derivative_paths k).
Proof.
  intros Hk. apply GroupAnalysisProps.filter_subjects_ok in Hk as (-> & -> & _).
  assert (forall l, (forall e, e ∈ l -> e ∈ group_sublist) ->
    Forall2 (fun ga_sub path =>
               ga_sub ∈ group_sublist /\ path ∈ s_paths /\
               path_matches rm ga_sub path = true)
      (flat_map (fun ga_sub => replicate (matching_paths rm ga_sub s_paths) ga_sub) l)
      (flat_map (fun ga_sub => List.filter (path_matches rm ga_sub) s_paths) l))
    as Hall.
  { induction l as [|e l IH]; intros Hl; simpl; [constructor|].
    apply Forall2_app.
    - apply replicate_filter_aligned. intros p Hp Hm.
      split; [apply Hl; by left | done].
    - apply IH. intros e' He'. apply Hl. by right. }
  by apply Hall.
Qed.

Lemma kept_lists_aligned_witness :
  Forall2 (fun ga_sub path =>
             ga_sub ∈ [py "001"; py "002"] /\
             path ∈ [py "/out/002/alff.nii.gz"; py "/out/001/alff.nii.gz"] /\
             path_matches false ga_sub path = true)
          [py "001"; py "002"]
          [py "/out/001/alff.nii.gz"; py "/out/002/alff.nii.gz"].
Proof.
  apply (kept_lists_aligned false
           [py "/out/002/alff.nii.gz"; py "/out/001/alff.nii.gz"]
           [py "001"; py "002"]
           (Kept [py "001"; py "002"]
                 [py "/out/001/alff.nii.gz"; py "/out/002/alff.nii.gz"])).
  reflexivity.
Defined.

Lemma format_error_not_no_derivatives (rm : bool) :
  format_error rm <> NoDerivatives.
Proof. by destruct rm. Qed.

Lemma scan_paths_derivatives_nil (rm : bool) (ga_sub : str) (s_paths : list str) :
  (length (derivative_paths (scan_paths rm ga_sub s_paths (Kept [] []))) =? 0)
  = (matching_paths rm ga_sub s_paths =? 0).
Proof.
  destruct (GroupAnalysisProps.scan_paths_spec rm ga_sub s_paths (Kept [] []))
    as [_ ->].
  done.
Qed.

Lemma scan_paths_derivatives_nonempty (rm : bool) (ga_sub : str)
    (s_paths : list str) (k : kept) :
  derivative_paths k <> [] ->
  derivative_paths (scan_paths rm ga_sub s_paths k) <> [].
Proof.
  destruct (GroupAnalysisProps.scan_paths_spec rm ga_sub s_paths k) as [_ ->].
  intros Hk Heq. by apply app_eq_nil in Heq as [? _].
Qed.

Lemma subject_loop_after_match (rm : bool) (s_paths group_sublist : list str)
    (k : kept) :
  derivative_paths k <> [] ->
  subject_loop rm s_paths group_sublist k <> Err NoDerivatives.
Proof.
  revert k. induction group_sublist as [|e rest IH]; intros k Hk; [done|].
  rewrite GroupAnalysisProps.subject_loop_cons.
  destruct (format_mismatch rm e).
  - intros [= H]. by apply format_error_not_no_derivatives in H.
  - pose proof (scan_paths_derivatives_nonempty rm e s_paths k Hk) as Hk'.
    destruct (derivative_paths (scan_paths rm e s_paths k)) eqn:Hd; [done|].
    simpl. apply IH. by rewrite Hd.
Qed.

(** The no-derivatives failure is decided by the first entry of the
    subject list alone: it is raised exactly when that entry has the right
    format and matches no candidate path, whatever the entries after it
    match. *)
Theorem no_derivatives_iff_first_unmatched (rm : bool)
    (s_paths group_sublist : list str) :
  filter_subjects rm s_paths group_sublist = Err NoDerivatives <->
  exists ga_sub rest,
    group_sublist = ga_sub :: rest /\
    format_mismatch rm ga_sub = false /\
    matching_paths rm ga_sub s_paths = 0.
Proof.
  unfold filter_subjects. split.
  - destruct group_sublist as [|e rest]; [done|].
    rewrite GroupAnalysisProps.subject_loop_cons.
    destruct (format_mismatch rm e) eqn:Hfmt.
    + intros [= H]. by apply format_error_not_no_derivatives in H.
    + rewrite scan_paths_derivatives_nil.
      destruct (matching_paths rm e s_paths =? 0) eqn:Hm.
      * intros _. exists e, rest. by apply Nat.eqb_eq in Hm.
      * intros Hloop. exfalso. revert Hloop. apply subject_loop_after_match.
        intros Hnil. apply (f_equal length) in Hnil. simpl in Hnil.
        pose proof (scan_paths_derivatives_nil rm e s_paths) as Heq.
        rewrite Hnil, Hm in Heq. done.
  - intros (e & rest & -> & Hfmt & Hm).
    rewrite GroupAnalysisProps.subject_loop_cons, Hfmt.
    by rewrite scan_paths_derivatives_nil, Hm.
Qed.

Lemma subject_loop_ok_format (rm : bool) (s_paths group_sublist : list str)
    (k k' : kept) :
  subject_loop rm s_paths group_sublist k = Ok k' ->
  Forall (fun ga_sub => format_mismatch rm ga_sub = false) group_sublist.
Proof.
  revert k. induction group_sublist as [|e rest IH]; intros k; [done|].
  rewrite GroupAnalysisProps.subject_loop_cons.
  destruct (format_mismatch rm e) eqn:Hfmt; [done|].
  destruct (_ =? 0); [done|]. intros Hrest. constructor; [done|]. by eapply IH.
Qed.

(** Filtering goes through exactly when the subject list is empty, or
    every entry has the format the flag asks for and the first entry
    matches a candidate path. *)
Theorem filter_subjects_succeeds_iff (rm : bool)
    (s_paths group_sublist : list str) :
  is_ok (filter_subjects rm s_paths group_sublist) = true <->
  group_sublist = [] \/
  (Forall (fun ga_sub => format_mismatch rm ga_sub = false) group_sublist /\
   exists ga_sub rest,
     group_sublist = ga_sub :: rest /\
     matching_paths rm ga_sub s_paths <> 0).
Proof.
  split.
  - destruct group_sublist as [|e rest]; [by left|]. intros Hok. right.
    destruct (filter_subjects rm s_paths (e :: rest)) as [k|] eqn:Hk; [|done].
    split; [by eapply subject_loop_ok_format|].
    exists e, rest. split; [done|]. intros Hm.
    assert (filter_subjects rm s_paths (e :: rest) = Err NoDerivatives) as Herr.
    { apply no_derivatives_iff_first_unmatched. exists e, rest.
      split; [done|]. split; [|done].
      apply subject_loop_ok_format in Hk. by inversion Hk. }
    congruence.
  - intros [-> | [Hfmt (e & rest & -> & Hm)]]; [done|].
    unfold filter_subjects. rewrite GroupAnalysisProps.subject_loop_cons.
    inversion Hfmt as [|? ? He Hrest]; subst. rewrite He.
    rewrite scan_paths_derivatives_nil.
    apply Nat.eqb_neq in Hm as Hm'. rewrite Hm'.
    destruct (GroupAnalysisProps.subject_loop_nonempty rm s_paths rest
                (scan_paths rm e s_paths (Kept [] []))) as (k' & -> & _);
      [|done|done].
    intros Hnil. apply (f_equal length) in Hnil. simpl in Hnil.
    pose proof (scan_paths_derivatives_nil rm e s_paths) as Heq.
    rewrite Hnil, Hm' in Heq. done.
Qed.

(** *** Entries of a repeated-measures list *)

Lemma count_char_app (c : ascii) (a b : str) :
  count_char c (a ++ b) = count_char c a + count_char c b.
Proof.
  induction a as [|x a IH]; [done|]. simpl. rewrite IH. lia.
Qed.

Lemma count_char_absent (c : ascii) (a : str) : c ∉ a -> count_char c a = 0.
Proof.
  induction a as [|x a IH]; [done|]. intros Ha.
  apply not_elem_of_cons in Ha as [Hx Ha]. simpl. rewrite (IH Ha).
  assert (ascii_eqb x c = false) as -> by (apply ascii_eqb_neq; congruence).
  done.
Qed.

Lemma split_char_zero (c : ascii) (a : str) : split_char c 0 a = [a].
Proof.
  induction a as [|x a IH]; [done|]. simpl. rewrite IH.
  by destruct (ascii_eqb x c).
Qed.

Lemma split_char_first (c : ascii) (k : nat) (a b : str) :
  c ∉ a -> split_char c (S k) (a ++ c :: b) = a :: split_char c k b.
Proof.
  induction a as [|x a IH]; intros Ha; simpl.
  - by rewrite ascii_eqb_refl.
  - apply not_elem_of_cons in Ha as [Hx Ha]. rewrite (IH Ha).
    assert (ascii_eqb x c = false) as -> by (apply ascii_eqb_neq; congruence).
    done.
Qed.

(** With repeated measures, an entry of two identifiers matches a path
    exactly when both occur in it, and an entry of three when all three
    do; an entry with more than two commas matches no path at all. *)
Theorem repeated_measures_match (path : str) :
  (forall sub_id other_id,
     comma ∉ sub_id -> comma ∉ other_id ->
     path_matches true (sub_id ++ comma :: other_id) path
     = in_str sub_id path && in_str other_id path) /\
  (forall sub_id scan_id session_id,
     comma ∉ sub_id -> comma ∉ scan_id -> comma ∉ session_id ->
     path_matches true (sub_id ++ comma :: scan_id ++ comma :: session_id) path
     = in_str sub_id path && in_str scan_id path && in_str session_id path) /\
  (forall ga_sub,
     2 < count_char comma ga_sub -> path_matches true ga_sub path = false).
Proof.
  split; [|split].
  - intros sub_id other_id Hs Ho. unfold path_matches.
    rewrite count_char_app. simpl.
    rewrite !count_char_absent by done. simpl.
    rewrite split_char_first by done. by rewrite split_char_zero.
  - intros sub_id scan_id session_id Hs Hc He. unfold path_matches.
    rewrite count_char_app. simpl.
    rewrite count_char_app. simpl.
    rewrite !count_char_absent by done. simpl.
    rewrite !split_char_first by done. by rewrite split_char_zero.
  - intros ga_sub Hn. unfold path_matches.
    destruct (count_char comma ga_sub) as [|[|[|n]]]; simpl; (lia || done).
Qed.

Lemma repeated_measures_match_witness :
  path_matches true (py "sub001" ++ comma :: py "scan_1")
    (py "/out/sub001/scan_1/alff.nii.gz")
  = in_str (py "sub001") (py "/out/sub001/scan_1/alff.nii.gz")
    && in_str (py "scan_1") (py "/out/sub001/scan_1/alff.nii.gz") /\
  path_matches true
    (py "sub001" ++ comma :: py "scan_1" ++ comma :: py "ses_2")
    (py "/out/sub001/scan_1/alff.nii.gz")
  = in_str (py "sub001") (py "/out/sub001/scan_1/alff.nii.gz")
    && in_str (py "scan_1") (py "/out/sub001/scan_1/alff.nii.gz")
    && in_str (py "ses_2") (py "/out/sub001/scan_1/alff.nii.gz") /\
  path_matches true (py "a,b,c,d") (py "/out/sub001/scan_1/alff.nii.gz") = false.
Proof.
  assert (forall s : string, in_str [comma] (py s) = false -> comma ∉ py s)
    as Hno.
  { intros s Hs Hin. apply list_elem_of_In, in_split in Hin as (u & v & Huv).
    assert (in_str [comma] (py s) = true) as Ht
      by (apply in_str_spec; by exists u, v).
    congruence. }
  destruct (repeated_measures_match (py "/out/sub001/scan_1/alff.nii.gz"))
    as (H2 & H3 & Hmany).
  split; [|split].
  - apply H2; by apply Hno.
  - apply H3; by apply Hno.
  - apply Hmany. vm_compute. lia.
Defined.

(** *** The name of the strategy directory *)

Lemma replace_char_absent (c : ascii) (repl s : str) :
  c ∉ repl -> c ∉ replace_char c repl s.
Proof.
  intros Hr. unfold replace_char. induction s as [|x s IH]; simpl.
  - apply not_elem_of_nil.
  - rewrite elem_of_app. intros [Hin | Hin]; [|done].
    destruct (ascii_eqb x c) eqn:Hx; [done|].
    apply ascii_eqb_neq in Hx. apply list_elem_of_singleton in Hin. congruence.
Qed.

Lemma replace_char_keeps_absent (c d : ascii) (repl s : str) :
  d ∉ repl -> d ∉ s -> d ∉ replace_char c repl s.
Proof.
  intros Hr. unfold replace_char. induction s as [|x s IH]; simpl; intros Hs.
  - apply not_elem_of_nil.
  - apply not_elem_of_cons in Hs as [Hx Hs]. rewrite elem_of_app.
    intros [Hin | Hin]; [|by apply IH].
    destruct (ascii_eqb x c); [done|].
    apply list_elem_of_singleton in Hin. congruence.
Qed.

Lemma replace_char_identity (c : ascii) (repl s : str) :
  c ∉ s -> replace_char c repl s = s.
Proof.
  unfold replace_char. induction s as [|x s IH]; [done|]. intros Hs.
  apply not_elem_of_cons in Hs as [Hx Hs]. simpl. rewrite (IH Hs).
  assert (ascii_eqb x c = false) as -> by (apply ascii_eqb_neq; congruence).
  done.
Qed.

(** The name made of the strategy path holds neither a dot nor a slash,
    and a strategy path without them is its own name. *)
Theorem strgy_path_name_friendly (strgy_path : str) :
  ("."%char ∉ strgy_path_name strgy_path) /\
  (slash ∉ strgy_path_name strgy_path) /\
  ("."%char ∉ strgy_path -> slash ∉ strgy_path ->
   strgy_path_name strgy_path = strgy_path).
Proof.
  unfold strgy_path_name. simpl.
  assert ("."%char ∉ (if in_str ["."%char] strgy_path
                      then replace_char "." (py "_") strgy_path
                      else strgy_path)) as Hdot.
  { destruct (in_str ["."%char] strgy_path) eqn:Hin.
    - apply replace_char_absent.
      intros H. apply list_elem_of_In in H. destruct H as [H | []]. discriminate H.
    - intros H. apply list_elem_of_In, in_split in H as (u & v & Huv).
      assert (in_str ["."%char] strgy_path = true) as Ht
        by (apply in_str_spec; by exists u, v).
      congruence. }
  split; [|split].
  - apply replace_char_keeps_absent; [|done].
    intros H. apply list_elem_of_In in H. vm_compute in H.
    destruct H as [H | [H | []]]; discriminate H.
  - apply replace_char_absent.
    intros H. apply list_elem_of_In in H. vm_compute in H.
    destruct H as [H | [H | []]]; discriminate H.
  - intros Hd Hs.
    assert (in_str ["."%char] strgy_path = false) as ->.
    { apply not_true_iff_false. intros (u & v & ->)%in_str_spec.
      apply Hd. rewrite elem_of_app. right. by left. }
    by apply replace_char_identity.
Qed.

Lemma strgy_path_name_friendly_witness :
  strgy_path_name (py "_scan_rest_1__csf_threshold_0_96")
  = py "_scan_rest_1__csf_threshold_0_96".
Proof.
  apply (strgy_path_name_friendly (py "_scan_rest_1__csf_threshold_0_96")).
  - intros Hin. apply list_elem_of_In in Hin. vm_compute in Hin.
    repeat (destruct Hin as [Hin | Hin]; [discriminate Hin|]). done.
  - intros Hin. apply list_elem_of_In in Hin. vm_compute in Hin.
    repeat (destruct Hin as [Hin | Hin]; [discriminate Hin|]). done.
Defined.

(** *** The subject list read back *)

(** Every entry read from a subject list is well formed: not empty, not a
    comment, without newline. So writing the entries read from a text and
    reading the written text gives the same entries again. *)
Theorem parse_write_parse (text : str) :
  Forall well_formed_entry (parse_subject_list text) /\
  parse_subject_list (write_subject_list (parse_subject_list text))
  = parse_subject_list text.
Proof.
  assert (Forall well_formed_entry (parse_subject_list text)) as Hwf.
  { rewrite GroupAnalysisProps.parse_eq_nonblank_lines.
    unfold nonblank_noncomment_lines. apply Forall_forall. intros e He.
    apply list_elem_of_In, filter_In in He as [He Hentry].
    split; [done|].
    pose proof (GroupAnalysisProps.lines_of_no_newline text) as Hnl.
    rewrite Forall_forall in Hnl. by apply Hnl, list_elem_of_In. }
  split; [done|]. by apply GroupAnalysisProps.parse_written_subject_list.
Qed.

End SubjectFilteringProps.

(** ** More on [func_preproc.py] *)

Module FuncPreprocMoreProps.
Import FuncPreproc.

(** The indices [get_idx] returns are fixed by it: given back as stop and
    start index for the same image, they come out unchanged. *)
Theorem get_idx_fixed_point (img : image) (stop_idx start_idx : option Z)
    (stopidx startidx : Z) :
  get_idx img stop_idx start_idx = Ok (stopidx, startidx) ->
  get_idx img (Some stopidx) (Some startidx) = Ok (stopidx, startidx).
Proof.
  unfold get_idx. destruct (data_shape img !! 3%nat) as [nvols|]; [|done].
  intros [= <- <-]. f_equal. f_equal.
  - assert ((nvols - 1 >? nvols - 1) = false) as Hlast by lia.
    destruct stop_idx as [e|]; [|by rewrite Hlast].
    destruct (e >? nvols - 1) eqn:He; [by rewrite Hlast | by rewrite He].
  - assert ((if (0 <? 0) || (0 >? nvols - 1) then 0 else 0) = 0) as Hzero
      by (by destruct ((0 <? 0) || (0 >? nvols - 1))).
    destruct start_idx as [s|]; [|done].
    destruct ((s <? 0) || (s >? nvols - 1)) eqn:Hs; [done | by rewrite Hs].
Qed.

Lemma get_idx_fixed_point_witness :
  get_idx {| data_shape := [64; 64; 32; 120] |} (Some 500) (Some (-3))
  = Ok (119, 0) /\
  get_idx {| data_shape := [64; 64; 32; 120] |} (Some 119) (Some 0)
  = Ok (119, 0).
Proof.
  split; [reflexivity|].
  apply (get_idx_fixed_point _ (Some 500) (Some (-3))). reflexivity.
Defined.

(** The workflow graph has no cycle: no node is downstream of itself. *)
Theorem workflow_is_acyclic (n : node) : ~ depends_on n n.
Proof.
  intros Hdep.
  apply (FuncPreprocProps.depends_on_later docstring_order) in Hdep.
  - lia.
  - apply FuncPreprocProps.respects_graph_docstring_order.
Qed.

(** No input of a node is connected twice. *)
Theorem inputs_connected_once (n : node) (port : string) :
  (length (feeds n port) <= 1)%nat.
Proof.
  unfold feeds, connections.
  destruct n; simpl;
    repeat (case_bool_decide; [subst port; vm_compute; lia|]); simpl; lia.
Qed.

End FuncPreprocMoreProps.
